(** * Mobile AI agent: command router and app launcher

    A shallow embedding of [ai_agent_core.py] (class [AIAgentCore]) and
    [app_launcher.py] (class [AppLauncher]), and the properties of the
    specification that concern them.

    Conventions of the embedding.
    - A Python [str] is a [string]; each [ascii] stands for the code point of
      the same number, so the strings covered are those of code points below
      256.  [lower], [strip] and [split] follow Python's behaviour on these
      code points.
    - A [dict] whose iteration order is observed (the app catalogue, the
      command-frequency table) is an association list in insertion order; the
      usage statistics, which the properties below only look up by key, are a
      [gmap].
    - [datetime.now().isoformat()] is an input of the operation that calls
      it (a [string]).
    - An object's fields are a record, and a method is a function from the
      record to the new record and the returned value. *)

From Stdlib Require Import Ascii String QArith.
From stdpp Require Import gmap strings list sorting.

Local Open Scope string_scope.
Local Open Scope Z_scope.
Local Open Scope list_scope.

(** ** Python string primitives *)

Module PyStr.

Definition code (c : ascii) : N := N_of_ascii c.

(** [str.lower] on one code point below 256: the ASCII capitals and the
    Latin-1 capitals U+00C0..U+00DE, the multiplication sign U+00D7
    excepted, move up by 32. *)
Definition lower_char (c : ascii) : ascii :=
  let n := code c in
  if ((65 <=? n) && (n <=? 90))%N then ascii_of_N (n + 32)
  else if ((192 <=? n) && (n <=? 222) && negb (n =? 215))%N
       then ascii_of_N (n + 32)
  else c.

Fixpoint lower (s : string) : string :=
  match s with
  | EmptyString => EmptyString
  | String c s' => String (lower_char c) (lower s')
  end.

(** [str.isspace] on one code point below 256. *)
Definition is_space (c : ascii) : bool :=
  let n := code c in
  (((9 <=? n) && (n <=? 13)) || ((28 <=? n) && (n <=? 32))
   || (n =? 133) || (n =? 160))%N.

Fixpoint lstrip (s : string) : string :=
  match s with
  | EmptyString => EmptyString
  | String c s' => if is_space c then lstrip s' else s
  end.

Fixpoint rstrip (s : string) : string :=
  match s with
  | EmptyString => EmptyString
  | String c s' =>
      match rstrip s' with
      | EmptyString => if is_space c then EmptyString else String c EmptyString
      | r => String c r
      end
  end.

(** [s.strip()] *)
Definition strip (s : string) : string := rstrip (lstrip s).

(** [sub in s] *)
Fixpoint contains (sub s : string) : bool :=
  if String.prefix sub s then true
  else match s with
       | EmptyString => false
       | String _ s' => contains sub s'
       end.

(** [s.split()]: maximal runs of non-space characters, left to right.
    [cur] is the run being read, reversed. *)
Fixpoint split_aux (cur : list ascii) (s : string) : list string :=
  let flush := match cur with
               | [] => []
               | _ => [string_of_list_ascii (rev cur)]
               end in
  match s with
  | EmptyString => flush
  | String c s' =>
      if is_space c then flush ++ split_aux [] s'
      else split_aux (c :: cur) s'
  end.

Definition split (s : string) : list string := split_aux [] s.

(** [x in xs] for a list of strings *)
Definition mem (x : string) (xs : list string) : bool :=
  existsb (String.eqb x) xs.

(** [any(k in s for k in ks)] *)
Definition any_in (ks : list string) (s : string) : bool :=
  existsb (fun k => contains k s) ks.

End PyStr.

Import PyStr.

(** ** ai_agent_core.py *)

Inductive CommandType : Type :=
| LAUNCH_APP
| SYSTEM_CONTROL
| AUTOMATION
| QUERY
| INTEGRATION.

Definition CommandType_value (t : CommandType) : string :=
  match t with
  | LAUNCH_APP => "launch_app"
  | SYSTEM_CONTROL => "system_control"
  | AUTOMATION => "automation"
  | QUERY => "query"
  | INTEGRATION => "integration"
  end.

Definition automation_keywords : list string :=
  ["when"; "every"; "schedule"; "automate"].
Definition launch_keywords : list string := ["open"; "launch"; "start"].
Definition control_keywords : list string :=
  ["set"; "enable"; "disable"; "turn"].
Definition query_keywords : list string :=
  ["what"; "where"; "how"; "tell"; "show"].

Definition _analyze_intent (command : string) : CommandType :=
  let command_lower := lower command in
  if any_in automation_keywords command_lower then AUTOMATION
  else if any_in launch_keywords command_lower then LAUNCH_APP
  else if any_in control_keywords command_lower then SYSTEM_CONTROL
  else if any_in query_keywords command_lower then QUERY
  else INTEGRATION.

Example intent_open_gmail : _analyze_intent "Open Gmail" = LAUNCH_APP.
Proof. reflexivity. Qed.
Example intent_enable_wifi : _analyze_intent "Enable WiFi" = SYSTEM_CONTROL.
Proof. reflexivity. Qed.
Example intent_when_turn :
  _analyze_intent "When I arrive home, turn on lights" = AUTOMATION.
Proof. reflexivity. Qed.
Example intent_weather : _analyze_intent "What's the weather?" = QUERY.
Proof. reflexivity. Qed.
Example split_example :
  split "  Open   Gmail now " = ["Open"; "Gmail"; "now"].
Proof. reflexivity. Qed.
Example strip_example : strip "  Google Maps  " = "Google Maps".
Proof. reflexivity. Qed.

(** A call that may raise: [Raised] carries the exception's class name. *)
Inductive outcome (A : Type) : Type :=
| Returned (a : A)
| Raised (exc : string).
Arguments Returned {A} a.
Arguments Raised {A} exc.

(** Python sequence slicing [l[start:]] for any integer [start]. *)
Definition py_slice_from {A} (start : Z) (l : list A) : list A :=
  if start <? 0
  then drop (Z.to_nat (Z.max 0 (Z.of_nat (length l) + start))) l
  else drop (Z.to_nat start) l.

(** The configuration dictionary; a key that is absent is [None]. *)
Record Config : Type := {
  wake_word : option string;
  language : option string;
  processing_mode : option string;
  privacy_mode : option bool;
  learning_enabled : option bool;
  max_history : option Z
}.

Definition _load_default_config : Config :=
  {| wake_word := Some "Hey Assistant";
     language := Some "en";
     processing_mode := Some "hybrid";
     privacy_mode := Some false;
     learning_enabled := Some true;
     max_history := Some 1000 |}.

(** Truth value of the dictionary: false exactly when it has no key. *)
Definition Config_truthy (c : Config) : bool :=
  match c with
  | {| wake_word := None; language := None; processing_mode := None;
       privacy_mode := None; learning_enabled := None;
       max_history := None |} => false
  | _ => true
  end.

Record Entities : Type := {
  e_app_name : option string;
  e_action : option string;
  e_parameters : list (string * string)
}.

(** The result dictionaries of the handlers; an absent key is [None]. *)
Record Result : Type := {
  success : bool;
  error : option string;
  action : option string;
  app_name : option string;
  message : option string;
  timestamp : option string
}.

Record HistoryEntry : Type := {
  h_command : string;
  h_intent : string;
  h_result : Result;
  h_timestamp : string
}.

Record Patterns : Type := {
  frequent_commands : list (string * Z);
  morning_commands : list string;
  afternoon_commands : list string;
  evening_commands : list string
}.

(** [learned_patterns] is [None] while it is the empty dictionary. *)
Record AIAgentCore : Type := {
  config : Config;
  command_history : list HistoryEntry;
  learned_patterns : option Patterns
}.

Definition AIAgentCore_init (cfg : option Config) : AIAgentCore :=
  {| config := match cfg with
               | Some c => if Config_truthy c then c else _load_default_config
               | None => _load_default_config
               end;
     command_history := [];
     learned_patterns := None |}.

(** The loop of [_extract_entities]: [i] is the index of the head of
    [rest] in [words]. *)
Fixpoint extract_loop (words : list string) (i : nat) (rest : list string)
    (entities : Entities) : Entities :=
  match rest with
  | [] => entities
  | word :: rest' =>
      if mem (lower word) ["open"; "launch"; "start"] then
        if (i + 1 <? length words)%nat then
          {| e_app_name := Some (nth (i + 1) words "");
             e_action := Some (lower word);
             e_parameters := e_parameters entities |}
        else extract_loop words (S i) rest' entities
      else extract_loop words (S i) rest' entities
  end.

Definition _extract_entities (command : string) : Entities :=
  let entities :=
    {| e_app_name := None; e_action := None; e_parameters := [] |} in
  let words := split command in
  extract_loop words 0 words entities.

(** Truth value of an optional string: [None] and the empty string are
    false. *)
Definition str_truthy (s : option string) : bool :=
  match s with
  | None | Some EmptyString => false
  | Some _ => true
  end.

Definition _launch_app (app : option string) (now : string) : Result :=
  if negb (str_truthy app) then
    {| success := false; error := Some "No app name provided";
       action := None; app_name := None; message := None;
       timestamp := None |}
  else
    {| success := true; error := None; action := Some "launch_app";
       app_name := app;
       message := Some ("Successfully launched " +:+ default "" app);
       timestamp := Some now |}.

Definition stub_result (act msg now : string) : Result :=
  {| success := true; error := None; action := Some act; app_name := None;
     message := Some msg; timestamp := Some now |}.

Definition _system_control (entities : Entities) (now : string) : Result :=
  stub_result "system_control" "System control executed" now.
Definition _create_automation (entities : Entities) (now : string) : Result :=
  stub_result "create_automation" "Automation rule created" now.
Definition _process_query (entities : Entities) (now : string) : Result :=
  stub_result "process_query" "Query processed" now.
Definition _handle_integration (entities : Entities) (now : string) : Result :=
  stub_result "integration" "Integration handled" now.

(** The optional [context] dictionary of a call. *)
Definition ContextDict : Type := option (list (string * string)).

Definition _execute_command (intent : CommandType) (entities : Entities)
    (context : ContextDict) (now : string) : Result :=
  match intent with
  | LAUNCH_APP => _launch_app (e_app_name entities) now
  | SYSTEM_CONTROL => _system_control entities now
  | AUTOMATION => _create_automation entities now
  | QUERY => _process_query entities now
  | INTEGRATION => _handle_integration entities now
  end.

Definition _store_command_history (self : AIAgentCore) (command : string)
    (intent : CommandType) (result : Result) (now : string) : AIAgentCore :=
  let history_entry :=
    {| h_command := command; h_intent := CommandType_value intent;
       h_result := result; h_timestamp := now |} in
  let history := command_history self ++ [history_entry] in
  let max_history := default 1000 (max_history (config self)) in
  {| config := config self;
     command_history :=
       if Z.of_nat (length history) >? max_history
       then py_slice_from (- max_history) history
       else history;
     learned_patterns := learned_patterns self |}.

(** [process_command]; [t_result] and [t_entry] are the clock readings of
    the handler and of the history entry. *)
Definition process_command (self : AIAgentCore) (command : string)
    (context : ContextDict) (t_result t_entry : string)
    : AIAgentCore * Result :=
  let intent := _analyze_intent command in
  let entities := _extract_entities command in
  let result := _execute_command intent entities context t_result in
  if default false (learning_enabled (config self))
  then (_store_command_history self command intent result t_entry, result)
  else (self, result).

(** An insertion-ordered dictionary from strings to integers. *)
Fixpoint dict_get (d : list (string * Z)) (k : string) (dflt : Z) : Z :=
  match d with
  | [] => dflt
  | (k', v) :: d' => if String.eqb k' k then v else dict_get d' k dflt
  end.

Fixpoint dict_set (d : list (string * Z)) (k : string) (v : Z)
    : list (string * Z) :=
  match d with
  | [] => [(k, v)]
  | (k', v') :: d' =>
      if String.eqb k' k then (k', v) :: d' else (k', v') :: dict_set d' k v
  end.

(** [sorted(items, key=lambda x: x[1], reverse=True)]: Python's sort is
    stable, also under [reverse=True], so an item goes in front of the first
    one of the items after it whose count is not greater. *)
Fixpoint insert_desc (x : string * Z) (l : list (string * Z))
    : list (string * Z) :=
  match l with
  | [] => [x]
  | y :: l' => if y.2 <=? x.2 then x :: l else y :: insert_desc x l'
  end.

Definition sorted_desc (items : list (string * Z)) : list (string * Z) :=
  foldr insert_desc [] items.

Definition _analyze_time_patterns (self : AIAgentCore)
    : list string * list string * list string := ([], [], []).

Definition command_frequency (history : list HistoryEntry)
    : list (string * Z) :=
  fold_left (fun freq entry =>
               let cmd := h_command entry in
               dict_set freq cmd (dict_get freq cmd 0 + 1))
            history [].

(** [learn_from_patterns] returns the empty dictionary ([None]) on an empty
    history, without touching [learned_patterns]. *)
Definition learn_from_patterns (self : AIAgentCore)
    : AIAgentCore * option Patterns :=
  match command_history self with
  | [] => (self, None)
  | _ =>
      let freq := command_frequency (command_history self) in
      let '(m, a, e) := _analyze_time_patterns self in
      let patterns :=
        {| frequent_commands := take 10 (sorted_desc freq);
           morning_commands := m; afternoon_commands := a;
           evening_commands := e |} in
      ({| config := config self; command_history := command_history self;
          learned_patterns := Some patterns |}, Some patterns)
  end.

Record ExportDoc : Type := {
  x_config : Config;
  x_learned_patterns : option Patterns;
  x_history_count : Z;
  x_export_timestamp : string
}.

(** [export_data]: [writable] tells whether opening and writing the file
    goes through; the document written is returned with the status. *)
Definition export_data (self : AIAgentCore) (filepath : string)
    (writable : bool) (now : string) : bool * option ExportDoc :=
  let doc :=
    {| x_config := config self;
       x_learned_patterns := learned_patterns self;
       x_history_count := Z.of_nat (length (command_history self));
       x_export_timestamp := now |} in
  if writable then (true, Some doc) else (false, None).

Definition clear_data (self : AIAgentCore) : AIAgentCore * bool :=
  ({| config := config self; command_history := [];
      learned_patterns := None |}, true).

(** ** app_launcher.py *)

Inductive AppCategory : Type :=
| SOCIAL | PRODUCTIVITY | ENTERTAINMENT | COMMUNICATION | UTILITY
| PHOTOGRAPHY | SHOPPING | HEALTH | NAVIGATION | OTHER.

Definition AppCategory_value (c : AppCategory) : string :=
  match c with
  | SOCIAL => "social" | PRODUCTIVITY => "productivity"
  | ENTERTAINMENT => "entertainment" | COMMUNICATION => "communication"
  | UTILITY => "utility" | PHOTOGRAPHY => "photography"
  | SHOPPING => "shopping" | HEALTH => "health"
  | NAVIGATION => "navigation" | OTHER => "other"
  end.

Definition AppCategory_eqb (a b : AppCategory) : bool :=
  String.eqb (AppCategory_value a) (AppCategory_value b).

Record AppInfo : Type := {
  name : string;
  package : string;
  category : AppCategory;
  icon : string
}.

Record UsageStats : Type := {
  launch_count : Z;
  last_used : option string;
  total_time : Z
}.

Abbreviation Catalogue := (list (string * AppInfo)).

Record AppLauncher : Type := {
  installed_apps : Catalogue;
  app_usage_stats : gmap string UsageStats;
  recent_apps : list string;
  favorites : list string
}.

Definition _initialize_app_database : Catalogue :=
  [ ("gmail", {| name := "Gmail"; package := "com.google.android.gm";
                 category := COMMUNICATION; icon := "gmail_icon" |});
    ("chrome", {| name := "Chrome"; package := "com.android.chrome";
                  category := PRODUCTIVITY; icon := "chrome_icon" |});
    ("camera", {| name := "Camera"; package := "com.android.camera";
                  category := PHOTOGRAPHY; icon := "camera_icon" |});
    ("spotify", {| name := "Spotify"; package := "com.spotify.music";
                   category := ENTERTAINMENT; icon := "spotify_icon" |});
    ("maps", {| name := "Google Maps";
                package := "com.google.android.apps.maps";
                category := NAVIGATION; icon := "maps_icon" |});
    ("whatsapp", {| name := "WhatsApp"; package := "com.whatsapp";
                    category := COMMUNICATION; icon := "whatsapp_icon" |});
    ("instagram", {| name := "Instagram"; package := "com.instagram.android";
                     category := SOCIAL; icon := "instagram_icon" |});
    ("slack", {| name := "Slack"; package := "com.slack";
                 category := PRODUCTIVITY; icon := "slack_icon" |}) ].

Definition AppLauncher_init : AppLauncher :=
  {| installed_apps := _initialize_app_database;
     app_usage_stats := ∅;
     recent_apps := [];
     favorites := [] |}.

(** [apps[key]] on the catalogue, [None] when [key] is not in it. *)
Fixpoint catalogue_get (apps : Catalogue) (key : string) : option AppInfo :=
  match apps with
  | [] => None
  | (k, app) :: rest =>
      if String.eqb k key then Some app else catalogue_get rest key
  end.

(** The second loop of [_find_app]. *)
Fixpoint find_by_display_name (apps : Catalogue) (app_identifier : string)
    : option AppInfo :=
  match apps with
  | [] => None
  | (key, app) :: rest =>
      if String.eqb (lower (name app)) app_identifier then Some app
      else find_by_display_name rest app_identifier
  end.

(** The third loop of [_find_app]. *)
Fixpoint find_partial (apps : Catalogue) (app_identifier : string)
    : option AppInfo :=
  match apps with
  | [] => None
  | (key, app) :: rest =>
      if contains app_identifier (lower (name app))
         || contains app_identifier key
      then Some app
      else find_partial rest app_identifier
  end.

Definition _find_app (apps : Catalogue) (app_identifier : string)
    : option AppInfo :=
  match catalogue_get apps app_identifier with
  | Some app => Some app
  | None =>
      match find_by_display_name apps app_identifier with
      | Some app => Some app
      | None => find_partial apps app_identifier
      end
  end.

(** [set(s.lower())] *)
Definition char_set (s : string) : gset ascii :=
  list_to_set (list_ascii_of_string (lower s)).

(** [_calculate_similarity].  The quotient of the two sizes is a rational
    here; the float the source computes is its correctly rounded value, and
    with at most 256 characters in the union it compares with 0.5 as the
    rational does. *)
Definition _calculate_similarity (str1 str2 : string) : Q :=
  let set1 := char_set str1 in
  let set2 := char_set str2 in
  let intersection := size (set1 ∩ set2) in
  let union := size (set1 ∪ set2) in
  if (0 <? union)%nat
  then Qmake (Z.of_nat intersection) (Pos.of_nat union)
  else 0%Q.

(** [q > 0.5] *)
Definition above_half (q : Q) : bool := negb (Qle_bool q (1 # 2)).

Fixpoint similar_loop (apps : Catalogue) (app_identifier : string)
    (suggestions : list string) : list string :=
  match apps with
  | [] => suggestions
  | (key, app) :: rest =>
      if contains app_identifier key
         || contains app_identifier (lower (name app))
         || above_half (_calculate_similarity app_identifier key)
      then similar_loop rest app_identifier (suggestions ++ [name app])
      else similar_loop rest app_identifier suggestions
  end.

Definition _get_similar_apps (apps : Catalogue) (app_identifier : string)
    : list string :=
  take 5 (similar_loop apps app_identifier []).

Definition _update_usage_stats (stats : gmap string UsageStats)
    (app_key : string) (now : string) : gmap string UsageStats :=
  let stats1 :=
    match stats !! app_key with
    | None => <[app_key := {| launch_count := 0; last_used := None;
                              total_time := 0 |}]> stats
    | Some _ => stats
    end in
  match stats1 !! app_key with
  | Some st =>
      <[app_key := {| launch_count := launch_count st + 1;
                      last_used := Some now;
                      total_time := total_time st |}]> stats1
  | None => stats1
  end.

(** [l.remove(x)] for an [x] that is in [l]: the first occurrence goes. *)
Fixpoint list_remove_first (x : string) (l : list string) : list string :=
  match l with
  | [] => []
  | y :: l' => if String.eqb y x then l' else y :: list_remove_first x l'
  end.

Definition _add_to_recent (recent : list string) (app_key : string)
    : list string :=
  let recent1 :=
    if mem app_key recent then list_remove_first app_key recent
    else recent in
  take 20 (app_key :: recent1).

Definition Params : Type := list (string * string).

(** The result dictionary of [launch]; an absent key is [None].  The deep
    link is kept as the formatted prefix and the parameters it prints. *)
Record LaunchResult : Type := {
  l_success : bool;
  l_error : option string;
  l_suggestions : option (list string);
  l_app_name : option string;
  l_package : option string;
  l_category : option string;
  l_timestamp : option string;
  l_message : option string;
  l_deep_link : option (string * Params)
}.

Definition _create_deep_link (app_info : AppInfo) (parameters : Params)
    : string * Params :=
  (package app_info +:+ "://action?", parameters).

Definition params_truthy (parameters : option Params) : bool :=
  match parameters with
  | None | Some [] => false
  | Some _ => true
  end.

(** [launch]; [t_stats] and [t_result] are the clock readings of the
    statistics update and of the result. *)
Definition launch (self : AppLauncher) (app_identifier : string)
    (parameters : option Params) (t_stats t_result : string)
    : AppLauncher * LaunchResult :=
  let app_key := strip (lower app_identifier) in
  match _find_app (installed_apps self) app_key with
  | None =>
      (self,
       {| l_success := false;
          l_error := Some ("App '" +:+ app_identifier +:+ "' not found");
          l_suggestions :=
            Some (_get_similar_apps (installed_apps self) app_key);
          l_app_name := None; l_package := None; l_category := None;
          l_timestamp := None; l_message := None; l_deep_link := None |})
  | Some app_info =>
      let self' :=
        {| installed_apps := installed_apps self;
           app_usage_stats :=
             _update_usage_stats (app_usage_stats self) app_key t_stats;
           recent_apps := _add_to_recent (recent_apps self) app_key;
           favorites := favorites self |} in
      (self',
       {| l_success := true; l_error := None; l_suggestions := None;
          l_app_name := Some (name app_info);
          l_package := Some (package app_info);
          l_category := Some (AppCategory_value (category app_info));
          l_timestamp := Some t_result;
          l_message := Some ("Successfully launched " +:+ name app_info);
          l_deep_link :=
            if params_truthy parameters
            then Some (_create_deep_link app_info (default [] parameters))
            else None |})
  end.

Record AppSummary : Type := {
  s_key : string;
  s_name : string;
  s_category : string
}.

(** The loop shared by [get_recent_apps] and [get_favorites]. *)
Fixpoint summaries (apps : Catalogue) (keys : list string)
    : list AppSummary :=
  match keys with
  | [] => []
  | app_key :: rest =>
      match catalogue_get apps app_key with
      | Some app =>
          {| s_key := app_key; s_name := name app;
             s_category := AppCategory_value (category app) |}
          :: summaries apps rest
      | None => summaries apps rest
      end
  end.

Definition get_recent_apps (self : AppLauncher) : list AppSummary :=
  summaries (installed_apps self) (recent_apps self).

Definition get_favorites (self : AppLauncher) : list AppSummary :=
  summaries (installed_apps self) (favorites self).

Definition get_apps_by_category (self : AppLauncher) (c : AppCategory)
    : list (string * string * string) :=
  map (fun e => (e.1, name e.2, package e.2))
      (filter (fun e => AppCategory_eqb (category e.2) c = true)
              (installed_apps self)).

Definition invalid_index : LaunchResult :=
  {| l_success := false; l_error := Some "Invalid recent app index";
     l_suggestions := None; l_app_name := None; l_package := None;
     l_category := None; l_timestamp := None; l_message := None;
     l_deep_link := None |}.

(** [switch_to_recent]: a negative [index] counts from the end of the list,
    and raises [IndexError] when it reaches before its start. *)
Definition switch_to_recent (self : AppLauncher) (index : Z)
    (t_stats t_result : string) : outcome (AppLauncher * LaunchResult) :=
  let n := Z.of_nat (length (recent_apps self)) in
  if index >=? n then Returned (self, invalid_index)
  else
    let i := if index <? 0 then index + n else index in
    if i <? 0 then Raised "IndexError"
    else
      match recent_apps self !! Z.to_nat i with
      | Some app_key => Returned (launch self app_key None t_stats t_result)
      | None => Raised "IndexError"
      end.

Definition add_to_favorites (self : AppLauncher) (app_identifier : string)
    : AppLauncher * bool :=
  let app_key := strip (lower app_identifier) in
  let app_info := _find_app (installed_apps self) app_key in
  if bool_decide (is_Some app_info) && negb (mem app_key (favorites self))
  then ({| installed_apps := installed_apps self;
           app_usage_stats := app_usage_stats self;
           recent_apps := recent_apps self;
           favorites := favorites self ++ [app_key] |}, true)
  else (self, false).

Example launch_gmail :
  l_app_name (launch AppLauncher_init "gmail" None "t0" "t1").2
  = Some "Gmail".
Proof. vm_compute. reflexivity. Qed.

Example launch_unknown :
  l_suggestions (launch AppLauncher_init "nonexistentapp" None "t0" "t1").2
  = Some [].
Proof. vm_compute. reflexivity. Qed.

(** * Properties *)

(** ** Strings *)

Section StringFacts.

Lemma prefix_lower (k s : string) :
  String.prefix k s = true ->
  String.prefix (lower k) (lower s) = true.
Proof.
  revert s. induction k as [|a k IH]; intros [|b s]; simpl; try done.
  destruct (Ascii.ascii_dec a b) as [->|]; [|done].
  intros H.
  destruct (Ascii.ascii_dec (lower_char b) (lower_char b)); [auto|congruence].
Qed.

Lemma append_cons (x : ascii) (a b : string) :
  String x a +:+ b = String x (a +:+ b).
Proof. reflexivity. Qed.

Lemma contains_unfold (k s : string) :
  contains k s
  = String.prefix k s
    || match s with
       | EmptyString => false
       | String _ s' => contains k s'
       end.
Proof.
  destruct s; simpl;
    by destruct k; try destruct (ascii_dec _ _);
      try destruct (String.prefix _ _).
Qed.

Lemma contains_lower (k s : string) :
  contains k s = true -> contains (lower k) (lower s) = true.
Proof.
  induction s as [|b s IH];
    rewrite (contains_unfold k), (contains_unfold (lower k));
    cbn [lower]; rewrite !orb_true_iff.
  - intros [H|H]; [left|done]. by apply (prefix_lower k "").
  - intros [H|H]; [left|right; auto].
    by apply (prefix_lower k (String b s)).
Qed.

Lemma any_in_spec (ks : list string) (s : string) :
  any_in ks s = true <-> exists k, k ∈ ks /\ contains k s = true.
Proof.
  unfold any_in. rewrite existsb_exists.
  split; intros (k & Hk & Hc); exists k; split; auto;
    by apply list_elem_of_In.
Qed.

Lemma any_in_false (ks : list string) (s : string) :
  any_in ks s = false <-> ~ exists k, k ∈ ks /\ contains k s = true.
Proof.
  rewrite <- any_in_spec. destruct (any_in ks s); split; try done.
Qed.

End StringFacts.

(** ** The command router *)

(** Some keyword of [ks] occurs in [s]. *)
Definition has_keyword (ks : list string) (s : string) : Prop :=
  exists k, k ∈ ks /\ contains k s = true.

Lemma keywords_lower (k : string) :
  k ∈ automation_keywords ++ launch_keywords -> lower k = k.
Proof.
  intros H. apply list_elem_of_In in H. simpl in H.
  repeat (destruct H as [<-|H]; [reflexivity|]). done.
Qed.

(** C1. [_analyze_intent] maps every string to one of the five tags, and
    the tag is decided on the lower-cased input in the order automation,
    launch, control, query, with INTEGRATION when no keyword occurs; a text
    in which an automation keyword and a launch keyword both occur, as
    written or up to case, is classified AUTOMATION. *)
Theorem C1_classify_priority (text : string) :
  let l := lower text in
  (exists t, _analyze_intent text = t
             /\ t ∈ [LAUNCH_APP; SYSTEM_CONTROL; AUTOMATION; QUERY;
                     INTEGRATION])
  /\ (_analyze_intent text = AUTOMATION
      <-> has_keyword ["when"; "every"; "schedule"; "automate"] l)
  /\ (_analyze_intent text = LAUNCH_APP
      <-> ~ has_keyword ["when"; "every"; "schedule"; "automate"] l
          /\ has_keyword ["open"; "launch"; "start"] l)
  /\ (_analyze_intent text = SYSTEM_CONTROL
      <-> ~ has_keyword ["when"; "every"; "schedule"; "automate"] l
          /\ ~ has_keyword ["open"; "launch"; "start"] l
          /\ has_keyword ["set"; "enable"; "disable"; "turn"] l)
  /\ (_analyze_intent text = QUERY
      <-> ~ has_keyword ["when"; "every"; "schedule"; "automate"] l
          /\ ~ has_keyword ["open"; "launch"; "start"] l
          /\ ~ has_keyword ["set"; "enable"; "disable"; "turn"] l
          /\ has_keyword ["what"; "where"; "how"; "tell"; "show"] l)
  /\ (_analyze_intent text = INTEGRATION
      <-> ~ has_keyword ["when"; "every"; "schedule"; "automate"] l
          /\ ~ has_keyword ["open"; "launch"; "start"] l
          /\ ~ has_keyword ["set"; "enable"; "disable"; "turn"] l
          /\ ~ has_keyword ["what"; "where"; "how"; "tell"; "show"] l)
  /\ (forall a b,
         a ∈ ["when"; "every"; "schedule"; "automate"] ->
         b ∈ ["open"; "launch"; "start"] ->
         (contains a text = true \/ contains a l = true) ->
         (contains b text = true \/ contains b l = true) ->
         _analyze_intent text = AUTOMATION).
Proof.
  intros l. unfold _analyze_intent. fold l.
  change ["when"; "every"; "schedule"; "automate"] with automation_keywords.
  change ["open"; "launch"; "start"] with launch_keywords.
  change ["set"; "enable"; "disable"; "turn"] with control_keywords.
  change ["what"; "where"; "how"; "tell"; "show"] with query_keywords.
  unfold has_keyword.
  assert (Hprio : forall a b : string,
             a ∈ automation_keywords -> b ∈ launch_keywords ->
             contains a text = true \/ contains a l = true ->
             contains b text = true \/ contains b l = true ->
             any_in automation_keywords l = true).
  { intros a b Ha _ Hc _. apply any_in_spec. exists a. split; [done|].
    destruct Hc as [Hc|Hc]; [|done].
    apply contains_lower in Hc. rewrite keywords_lower in Hc; [done|].
    apply elem_of_app. by left. }
  destruct (any_in automation_keywords l) eqn:Ea;
    [apply any_in_spec in Ea | apply any_in_false in Ea];
  (destruct (any_in launch_keywords l) eqn:El;
    [apply any_in_spec in El | apply any_in_false in El]);
  (destruct (any_in control_keywords l) eqn:Ec;
    [apply any_in_spec in Ec | apply any_in_false in Ec]);
  (destruct (any_in query_keywords l) eqn:Eq;
    [apply any_in_spec in Eq | apply any_in_false in Eq]);
  (split; [eexists; split; [reflexivity|apply list_elem_of_In; simpl; tauto]|]);
  repeat split; try done; try tauto;
  try (intros a b Ha Hb Hca Hcb; by specialize (Hprio a b Ha Hb Hca Hcb)).
Qed.

Lemma C1_classify_priority_witness :
  _analyze_intent "Schedule: open the mail" = AUTOMATION.
Proof.
  refine (proj2 (proj2 (proj2 (proj2 (proj2 (proj2
            (C1_classify_priority "Schedule: open the mail"))))))
            "schedule" "open" _ _ _ _).
  - set_solver.
  - set_solver.
  - right. reflexivity.
  - left. reflexivity.
Defined.

(** The token [w] is one of the launch verbs, whatever its case. *)
Definition is_launch_verb (w : string) : bool :=
  mem (lower w) ["open"; "launch"; "start"].

(** The extraction as the specification words it: the first verb token from
    the left, and the token right after it. *)
Definition extract_app_name_spec (text : string) : option string :=
  let tokens := split text in
  match list_find (fun w => is_launch_verb w = true) tokens with
  | Some (i, _) => tokens !! S i
  | None => None
  end.

(** Some character of [s] is white space. *)
Definition has_space (s : string) : bool :=
  existsb is_space (list_ascii_of_string s).

(** Every character of [s] is white space. *)
Definition only_space (s : string) : bool :=
  forallb is_space (list_ascii_of_string s).

(** The string is empty or starts with a white-space character. *)
Definition starts_blank (s : string) : bool :=
  match s with
  | EmptyString => true
  | String c _ => is_space c
  end.

(** Splitting on white space, as the specification words it: the text is
    white space, then a token, a longest run of characters that are no
    white space, then the rest, which is split in the same way. *)
Inductive tokens : string -> list string -> Prop :=
| tokens_blank (ws : string) :
    only_space ws = true -> tokens ws []
| tokens_word (ws t rest : string) (toks : list string) :
    only_space ws = true ->
    t <> "" ->
    has_space t = false ->
    starts_blank rest = true ->
    tokens rest toks ->
    tokens (ws +:+ t +:+ rest) (t :: toks).

Section Tokenization.

Lemma only_space_starts_blank (s : string) :
  only_space s = true -> starts_blank s = true.
Proof.
  destruct s as [|c s]; [done|]. unfold only_space. simpl.
  by intros [? _]%andb_true_iff.
Qed.

Lemma split_aux_blank (cur : list ascii) (ws : string) :
  only_space ws = true ->
  split_aux cur ws = match cur with
                     | [] => []
                     | _ => [string_of_list_ascii (rev cur)]
                     end.
Proof.
  revert cur. induction ws as [|c ws IH]; intros cur; [done|].
  unfold only_space. cbn [list_ascii_of_string forallb split_aux].
  intros [Hc Hws]%andb_true_iff. rewrite Hc, (IH [] Hws).
  by rewrite app_nil_r.
Qed.

Lemma split_aux_skip (ws x : string) :
  only_space ws = true -> split_aux [] (ws +:+ x) = split_aux [] x.
Proof.
  induction ws as [|c ws IH]; [done|].
  unfold only_space. cbn [list_ascii_of_string forallb].
  intros [Hc Hws]%andb_true_iff. rewrite append_cons.
  cbn [split_aux]. rewrite Hc. by apply IH.
Qed.

Lemma split_aux_word (t rest : string) (cur : list ascii) :
  has_space t = false ->
  split_aux cur (t +:+ rest)
  = split_aux (rev (list_ascii_of_string t) ++ cur) rest.
Proof.
  revert cur. induction t as [|c t IH]; intros cur; [done|].
  unfold has_space. cbn [list_ascii_of_string existsb].
  intros [Hc Ht]%orb_false_iff. rewrite append_cons.
  cbn [split_aux rev]. rewrite Hc, (IH (c :: cur) Ht).
  by rewrite <- app_assoc.
Qed.

Lemma split_aux_flush (cur : list ascii) (rest : string) :
  starts_blank rest = true ->
  split_aux cur rest
  = match cur with
    | [] => []
    | _ => [string_of_list_ascii (rev cur)]
    end ++ split_aux [] rest.
Proof.
  destruct rest as [|c rest]; simpl.
  - intros _. by rewrite app_nil_r.
  - by intros ->.
Qed.

Lemma tokens_split (s : string) (toks : list string) :
  tokens s toks -> split s = toks.
Proof.
  unfold split. induction 1 as [ws Hws|ws t rest toks Hws Hne Ht Hrest _ IH].
  - by rewrite split_aux_blank.
  - rewrite split_aux_skip, split_aux_word, app_nil_r by done.
    rewrite split_aux_flush, IH by done.
    destruct (rev (list_ascii_of_string t)) as [|a l] eqn:Hrev.
    + apply (f_equal (@rev ascii)) in Hrev. rewrite rev_involutive in Hrev.
      destruct t; [done|discriminate].
    + rewrite <- Hrev, rev_involutive, string_of_list_ascii_of_string. done.
Qed.

Lemma tokens_cons_char (c : ascii) (s : string) (toks : list string) :
  tokens s toks -> exists toks', tokens (String c s) toks'.
Proof.
  intros H. destruct (is_space c) eqn:Hc.
  - destruct H as [ws Hws|ws t rest toks Hws Hne Ht Hrest Htoks].
    + exists []. apply tokens_blank. unfold only_space in *. simpl.
      by rewrite Hc.
    + exists (t :: toks).
      apply (tokens_word (String c ws) t rest toks); try done.
      unfold only_space in *. simpl. by rewrite Hc.
  - destruct H as [ws Hws|ws t rest toks Hws Hne Ht Hrest Htoks].
    + exists [String c ""].
      apply (tokens_word "" (String c "") ws []); try done.
      * unfold has_space. simpl. by rewrite Hc.
      * by apply only_space_starts_blank.
      * by apply tokens_blank.
    + destruct ws as [|d ws].
      * exists (String c t :: toks).
        apply (tokens_word "" (String c t) rest toks); try done.
        unfold has_space in *. simpl. by rewrite Hc.
      * exists (String c "" :: t :: toks).
        apply (tokens_word "" (String c "")
                 (String d ws +:+ t +:+ rest) (t :: toks)); try done.
        -- unfold has_space. simpl. by rewrite Hc.
        -- by apply (only_space_starts_blank (String d ws)).
        -- by apply tokens_word.
Qed.

Lemma split_tokens (s : string) : tokens s (split s).
Proof.
  assert (exists toks, tokens s toks) as [toks H].
  { induction s as [|c s [toks IH]].
    - exists []. by apply tokens_blank.
    - by apply (tokens_cons_char c s toks). }
  by rewrite (tokens_split s toks H).
Qed.

End Tokenization.

Section Extraction.

Lemma extract_loop_app_name (pre rest : list string) (ents : Entities) :
  e_app_name ents = None ->
  e_app_name (extract_loop (pre ++ rest) (length pre) rest ents)
  = match list_find (fun w => is_launch_verb w = true) rest with
    | Some (j, _) => (pre ++ rest) !! S (length pre + j)
    | None => None
    end.
Proof.
  intros Hnone. revert pre.
  induction rest as [|word rest IH]; intros pre; [done|].
  cbn [extract_loop list_find]. fold (is_launch_verb word).
  assert (Hnext : extract_loop (pre ++ word :: rest) (S (length pre)) rest ents
                  = extract_loop ((pre ++ [word]) ++ rest)
                                 (length (pre ++ [word])) rest ents).
  { rewrite <- app_assoc, length_app. simpl. by rewrite Nat.add_1_r. }
  destruct (is_launch_verb word) eqn:Everb.
  - rewrite decide_True by done. cbn [fmap option_fmap option_map].
    rewrite Nat.add_0_r.
    destruct (length pre + 1 <? length (pre ++ word :: rest))%nat eqn:Elt.
    + apply Nat.ltb_lt in Elt. cbn [e_app_name].
      rewrite Nat.add_1_r in *.
      destruct (lookup_lt_is_Some_2 (pre ++ word :: rest) (S (length pre)) Elt)
        as [w Hw].
      rewrite Hw. f_equal. by apply nth_lookup_Some.
    + apply Nat.ltb_ge in Elt. rewrite length_app in Elt. simpl in Elt.
      destruct rest; [|simpl in Elt; lia].
      simpl. rewrite Hnone. symmetry. apply lookup_ge_None.
      rewrite length_app. simpl. lia.
  - rewrite decide_False by done.
    rewrite Hnext, IH.
    destruct (list_find _ rest) as [[j w]|]; simpl; [|done].
    rewrite <- app_assoc, length_app. simpl. f_equal. lia.
Qed.

Lemma split_aux_nonempty (cur : list ascii) (s w : string) :
  w ∈ split_aux cur s -> w <> "".
Proof.
  revert cur. induction s as [|c s IH]; intros cur; cbn [split_aux].
  - destruct cur as [|a cur]; [by intros ?%elem_of_nil|].
    intros ->%list_elem_of_singleton.
    intros H. apply (f_equal list_ascii_of_string) in H.
    rewrite list_ascii_of_string_of_list_ascii in H. simpl in H.
    by destruct (rev cur).
  - destruct (is_space c); [|by apply IH].
    rewrite elem_of_app. intros [H|H]; [|by apply (IH [])].
    destruct cur as [|a cur]; [by apply elem_of_nil in H|].
    apply list_elem_of_singleton in H as ->.
    intros H. apply (f_equal list_ascii_of_string) in H.
    rewrite list_ascii_of_string_of_list_ascii in H. simpl in H.
    by destruct (rev cur).
Qed.

Lemma extracted_name_truthy (command a : string) :
  e_app_name (_extract_entities command) = Some a ->
  str_truthy (Some a) = true.
Proof.
  unfold _extract_entities.
  rewrite (extract_loop_app_name [] (split command)) by done.
  destruct (list_find _ _) as [[j w]|]; [|done].
  intros H. assert (a <> "") as Hne.
  { eapply (split_aux_nonempty []). eapply list_elem_of_lookup_2. exact H. }
  by destruct a.
Qed.

End Extraction.

(** C2. The text is split on white space: [split] gives the one list of
    tokens that the text has, and the extraction is the token that follows
    the first launch verb, whatever its case, among these tokens, as
    written, none when there is no verb or nothing follows it.  On a text
    classified LAUNCH_APP, [process_command] fails with the missing-app-name
    error exactly when the extraction found no app name, and succeeds with
    the extracted name otherwise; on a text of any other intent it
    succeeds. *)
Theorem C2_launch_needs_app_name (self : AIAgentCore) (command : string)
    (context : ContextDict) (t_result t_entry : string) :
  let r := (process_command self command context t_result t_entry).2 in
  let extracted := e_app_name (_extract_entities command) in
  tokens command (split command)
  /\ (forall toks,
         tokens command toks ->
         toks = split command
         /\ extracted
            = match list_find (fun w => is_launch_verb w = true) toks with
              | Some (i, _) => toks !! S i
              | None => None
              end)
  /\ extracted = extract_app_name_spec command
  /\ (_analyze_intent command = LAUNCH_APP ->
      ((success r = false /\ error r = Some "No app name provided")
       <-> extracted = None)
      /\ (forall a, extracted = Some a ->
                    success r = true /\ app_name r = Some a))
  /\ (_analyze_intent command <> LAUNCH_APP ->
      success r = true /\ error r = None).
Proof.
  intros r extracted.
  assert (Hspec : extracted = extract_app_name_spec command).
  { unfold extracted, _extract_entities, extract_app_name_spec.
    by rewrite (extract_loop_app_name [] (split command)). }
  split; [apply split_tokens|]. split; [|split; [exact Hspec|split]].
  - intros toks Htoks. apply tokens_split in Htoks as <-. split; [done|].
    exact Hspec.
  - intros Hintent.
    assert (Hr : r = _launch_app extracted t_result).
    { unfold r, process_command. rewrite Hintent.
      by destruct (default false _). }
    rewrite Hr. destruct extracted as [a|] eqn:Ex.
    + pose proof (extracted_name_truthy command a Ex) as Ht.
      unfold _launch_app. rewrite Ht. simpl. split.
      * split; [intros [? _]|]; done.
      * by intros ? [= <-].
    + simpl. split; [done|]. intros; done.
  - intros Hintent.
    assert (Hr : r = _execute_command (_analyze_intent command)
                       (_extract_entities command) context t_result).
    { unfold r, process_command. by destruct (default false _). }
    rewrite Hr. by destruct (_analyze_intent command).
Qed.

Example tokens_open_gmail :
  tokens " Open  Gmail now" ["Open"; "Gmail"; "now"].
Proof.
  apply (tokens_word " " "Open" "  Gmail now" ["Gmail"; "now"]); try done.
  apply (tokens_word "  " "Gmail" " now" ["now"]); try done.
  apply (tokens_word " " "now" "" []); try done.
  by apply tokens_blank.
Qed.

Lemma C2_launch_needs_app_name_witness :
  (success (process_command (AIAgentCore_init None) " Open  Gmail now" None
              "t0" "t1").2 = true
   /\ app_name (process_command (AIAgentCore_init None) " Open  Gmail now"
                  None "t0" "t1").2 = Some "Gmail")
  /\ success (process_command (AIAgentCore_init None) "please open" None
                "t0" "t1").2 = false
  /\ success (process_command (AIAgentCore_init None) "turn it up" None
                "t0" "t1").2 = true.
Proof.
  split; [|split].
  - apply (proj2 (proj1 (proj2 (proj2 (proj2
             (C2_launch_needs_app_name (AIAgentCore_init None)
                " Open  Gmail now" None "t0" "t1"))))
             ltac:(reflexivity)) "Gmail").
    reflexivity.
  - apply (proj1 (proj2 (proj2 (proj2
             (C2_launch_needs_app_name (AIAgentCore_init None)
                "please open" None "t0" "t1"))))).
    + reflexivity.
    + reflexivity.
  - apply (proj2 (proj2 (proj2 (proj2
             (C2_launch_needs_app_name (AIAgentCore_init None)
                "turn it up" None "t0" "t1"))))).
    vm_compute. discriminate.
Defined.

(** ** The command history *)

(** One call of [process_command]: its arguments and its clock readings. *)
Record Call : Type := {
  c_command : string;
  c_context : ContextDict;
  c_t_result : string;
  c_t_entry : string
}.

Definition process_call (self : AIAgentCore) (c : Call) : AIAgentCore :=
  (process_command self (c_command c) (c_context c) (c_t_result c)
     (c_t_entry c)).1.

Definition process_commands (self : AIAgentCore) (calls : list Call)
    : AIAgentCore :=
  fold_left process_call calls self.

(** The history entry that a call leaves when learning is enabled. *)
Definition history_entry_of (c : Call) : HistoryEntry :=
  let intent := _analyze_intent (c_command c) in
  {| h_command := c_command c;
     h_intent := CommandType_value intent;
     h_result := _execute_command intent (_extract_entities (c_command c))
                   (c_context c) (c_t_result c);
     h_timestamp := c_t_entry c |}.

Section History.

Variable m : Z.
Hypothesis m_pos : 0 < m.

(** The last [m] elements of a list. *)
Definition last_m {A} (l : list A) : list A :=
  drop (length l - Z.to_nat m) l.

Lemma last_m_length {A} (l : list A) :
  Z.of_nat (length (last_m l)) = Z.min (Z.of_nat (length l)) m.
Proof. unfold last_m. rewrite length_drop. lia. Qed.

Lemma last_m_snoc {A} (l e : list A) :
  last_m (last_m l ++ e) = last_m (l ++ e).
Proof.
  unfold last_m.
  rewrite <- (drop_app_le l e) by lia.
  rewrite drop_drop. f_equal.
  rewrite ?length_drop, ?length_app. lia.
Qed.

Lemma bounded_slice {A} (l : list A) :
  (if Z.of_nat (length l) >? m then py_slice_from (- m) l else l)
  = last_m l.
Proof.
  unfold last_m, py_slice_from.
  destruct (Z.gtb_spec (Z.of_nat (length l)) m) as [Hgt|Hle].
  - destruct (Z.ltb_spec (- m) 0); [|lia]. f_equal. lia.
  - replace (length l - Z.to_nat m)%nat with 0%nat by lia. done.
Qed.

Lemma process_call_enabled (self : AIAgentCore) (c : Call) :
  learning_enabled (config self) = Some true ->
  max_history (config self) = Some m ->
  config (process_call self c) = config self
  /\ command_history (process_call self c)
     = last_m (command_history self ++ [history_entry_of c]).
Proof.
  intros Hl Hm. unfold process_call, process_command. rewrite Hl.
  cbn [default fst]. unfold _store_command_history.
  cbn [config command_history]. rewrite Hm. cbn [default].
  split; [done|]. apply bounded_slice.
Qed.

Lemma process_commands_enabled (calls : list Call) (self : AIAgentCore) :
  learning_enabled (config self) = Some true ->
  max_history (config self) = Some m ->
  Z.of_nat (length (command_history self)) <= m ->
  command_history (process_commands self calls)
  = last_m (command_history self ++ map history_entry_of calls).
Proof.
  revert self. induction calls as [|c calls IH]; intros self Hl Hm Hlen.
  - simpl. rewrite app_nil_r. unfold last_m.
    by replace (length (command_history self) - Z.to_nat m)%nat
      with 0%nat by lia.
  - destruct (process_call_enabled self c Hl Hm) as [Hcfg Hhist].
    cbn [process_commands fold_left].
    fold (process_commands (process_call self c) calls).
    rewrite IH.
    + rewrite Hhist, last_m_snoc, <- app_assoc. done.
    + by rewrite Hcfg.
    + by rewrite Hcfg.
    + rewrite Hhist, last_m_length. lia.
Qed.

End History.

(** C5. With learning enabled and a positive [max_history] of [m], the
    history after [N] calls of [process_command] on a fresh agent holds the
    entries of the last [min N m] calls, in call order, and a successful
    export reports [min N m] as its history count; with learning disabled a
    call of [process_command] leaves the agent, and so its history, as it
    was. *)
Theorem C5_history_bound (calls : list Call) :
  (forall (cfg : Config) (m : Z),
      learning_enabled cfg = Some true ->
      max_history cfg = Some m ->
      0 < m ->
      let self := process_commands (AIAgentCore_init (Some cfg)) calls in
      let N := length calls in
      command_history self
      = map history_entry_of (drop (N - Z.to_nat m) calls)
      /\ Z.of_nat (length (command_history self)) = Z.min (Z.of_nat N) m
      /\ forall path now,
          exists doc, export_data self path true now = (true, Some doc)
                      /\ x_history_count doc = Z.min (Z.of_nat N) m)
  /\ (forall (self : AIAgentCore) (c : Call),
         default false (learning_enabled (config self)) = false ->
         process_call self c = self).
Proof.
  split.
  - intros cfg m Hl Hm Hpos self N.
    assert (Hcfg : config (AIAgentCore_init (Some cfg)) = cfg).
    { unfold AIAgentCore_init. cbn [config].
      destruct cfg as [? ? ? ? le ?]. simpl in Hl. subst le. simpl.
      by repeat case_match. }
    assert (Hh : command_history self
                 = map history_entry_of (drop (N - Z.to_nat m) calls)).
    { unfold self. rewrite (process_commands_enabled m Hpos).
      - cbn [AIAgentCore_init command_history app]. unfold last_m.
        by rewrite skipn_map, length_map.
      - by rewrite Hcfg.
      - by rewrite Hcfg.
      - simpl. lia. }
    assert (Hn : Z.of_nat (length (command_history self))
                 = Z.min (Z.of_nat N) m).
    { rewrite Hh, length_map, length_drop. unfold N. lia. }
    split; [done|]. split; [done|].
    intros path now. eexists. split; [reflexivity|]. done.
  - intros self c Hoff. unfold process_call, process_command.
    by rewrite Hoff.
Qed.

Definition small_config : Config :=
  {| wake_word := Some "Hey Assistant"; language := Some "en";
     processing_mode := Some "hybrid"; privacy_mode := Some false;
     learning_enabled := Some true; max_history := Some 2 |}.

Definition three_calls : list Call :=
  [ {| c_command := "Open Gmail"; c_context := None;
       c_t_result := "t0"; c_t_entry := "t1" |};
    {| c_command := "Launch camera"; c_context := None;
       c_t_result := "t2"; c_t_entry := "t3" |};
    {| c_command := "Start Spotify"; c_context := None;
       c_t_result := "t4"; c_t_entry := "t5" |} ].

Lemma C5_history_bound_witness :
  map h_command
    (command_history
       (process_commands (AIAgentCore_init (Some small_config)) three_calls))
  = ["Launch camera"; "Start Spotify"].
Proof.
  rewrite (proj1 (proj1 (C5_history_bound three_calls) small_config 2
                    eq_refl eq_refl ltac:(lia))).
  reflexivity.
Defined.

(** ** Learned patterns *)

(** How often the command [c] occurs in [cmds]. *)
Definition occurrences (c : string) (cmds : list string) : Z :=
  Z.of_nat (length (filter (fun x => x = c) cmds)).

(** The index of the first occurrence of [c] in [cmds]. *)
Fixpoint first_index (c : string) (cmds : list string) : nat :=
  match cmds with
  | [] => 0
  | x :: rest => if decide (x = c) then 0 else S (first_index c rest)
  end.

(** The distinct commands, in the order of their first occurrences. *)
Definition first_occurrences (cmds : list string) : list string :=
  reverse (remove_dups (reverse cmds)).

(** [a] goes before [b] in the ranking of [cmds]: a greater count, or the
    same count and an earlier first occurrence. *)
Definition ranks_before (cmds : list string) (a b : string * Z) : Prop :=
  b.2 < a.2 \/ (a.2 = b.2 /\ (first_index a.1 cmds < first_index b.1 cmds)%nat).

Section StableSort.

Variable before : relation (string * Z).

Let ranked (a b : string * Z) : Prop :=
  b.2 < a.2 \/ (a.2 = b.2 /\ before a b).

Lemma insert_desc_perm (x : string * Z) (l : list (string * Z)) :
  insert_desc x l ≡ₚ x :: l.
Proof.
  induction l as [|y l IH]; simpl; [done|].
  destruct (y.2 <=? x.2); [done|]. by rewrite IH, Permutation_swap.
Qed.

Lemma sorted_desc_perm (l : list (string * Z)) : sorted_desc l ≡ₚ l.
Proof.
  induction l as [|x l IH]; simpl; [done|].
  by rewrite insert_desc_perm, IH.
Qed.

Lemma insert_desc_sorted (x : string * Z) (l : list (string * Z)) :
  Forall (before x) l ->
  StronglySorted ranked l ->
  StronglySorted ranked (insert_desc x l).
Proof.
  induction l as [|y l IH]; intros Hx Hl; simpl.
  - repeat constructor.
  - apply StronglySorted_cons in Hl as [Hy Hl].
    apply Forall_cons in Hx as [Hxy Hx].
    destruct (Z.leb_spec (y.2) (x.2)) as [Hle|Hgt].
    + apply StronglySorted_cons. split.
      * apply Forall_cons. split.
        { unfold ranked.
          destruct (decide (y.2 = x.2)); [right|left]; [done|lia]. }
        rewrite Forall_forall in Hy, Hx |- *. intros z Hz.
        specialize (Hy z Hz). specialize (Hx z Hz). unfold ranked in *.
        destruct (decide (z.2 = x.2)); [right; done|left; lia].
      * apply StronglySorted_cons. done.
    + apply StronglySorted_cons. split; [|by apply IH].
      rewrite insert_desc_perm. apply Forall_cons. split; [|done].
      left. lia.
Qed.

Lemma sorted_desc_sorted (l : list (string * Z)) :
  StronglySorted before l -> StronglySorted ranked (sorted_desc l).
Proof.
  induction l as [|x l IH]; intros Hl; simpl; [constructor|].
  apply StronglySorted_cons in Hl as [Hx Hl].
  apply insert_desc_sorted; [|by apply IH].
  by rewrite sorted_desc_perm.
Qed.

End StableSort.

Section Frequency.

(** A table that gives each key of [keys] the value [g] has for it. *)
Let table (g : string -> Z) (keys : list string) : list (string * Z) :=
  map (fun c => (c, g c)) keys.

Lemma dict_get_table (g : string -> Z) (keys : list string) (k : string)
    (dflt : Z) :
  dict_get (table g keys) k dflt = if decide (k ∈ keys) then g k else dflt.
Proof.
  induction keys as [|c keys IH]; cbn [table map dict_get].
  - destruct (decide (k ∈ [])) as [Hin|]; [|done].
    by apply elem_of_nil in Hin.
  - fold (table g keys). rewrite IH.
    destruct (String.eqb_spec c k) as [->|Hne].
    + by rewrite decide_True by apply list_elem_of_here.
    + destruct (decide (k ∈ keys)) as [Hin|Hout].
      * by rewrite decide_True by by apply list_elem_of_further.
      * rewrite decide_False; [done|].
        intros [?|?]%elem_of_cons; congruence.
Qed.

Lemma table_ext (g g' : string -> Z) (keys : list string) :
  (forall c, c ∈ keys -> g c = g' c) -> table g keys = table g' keys.
Proof.
  intros H. apply map_ext_in. intros c Hc.
  by rewrite (H c) by by apply list_elem_of_In.
Qed.

Lemma dict_set_table (g : string -> Z) (keys : list string) (k : string)
    (v : Z) :
  NoDup keys ->
  dict_set (table g keys) k v
  = if decide (k ∈ keys)
    then table (fun c => if decide (c = k) then v else g c) keys
    else table g keys ++ [(k, v)].
Proof.
  induction keys as [|c keys IH]; intros Hnd; cbn [table map dict_set].
  - destruct (decide (k ∈ [])) as [Hin|]; [|done].
    by apply elem_of_nil in Hin.
  - fold (table g keys).
    fold (table (fun c => if decide (c = k) then v else g c) keys).
    apply NoDup_cons in Hnd as [Hc Hnd]. rewrite (IH Hnd).
    destruct (String.eqb_spec c k) as [->|Hne].
    + rewrite decide_True by apply list_elem_of_here.
      rewrite decide_True by done. f_equal.
      apply table_ext. intros c Hin.
      rewrite decide_False; [done|]. by intros ->.
    + rewrite (decide_False (P := c = k)) by done.
      destruct (decide (k ∈ keys)) as [Hin|Hout].
      * by rewrite decide_True by by apply list_elem_of_further.
      * rewrite decide_False; [done|].
        intros [?|?]%elem_of_cons; congruence.
Qed.

Lemma first_occurrences_snoc (cmds : list string) (k : string) :
  first_occurrences (cmds ++ [k])
  = if decide (k ∈ cmds) then first_occurrences cmds
    else first_occurrences cmds ++ [k].
Proof.
  unfold first_occurrences. rewrite reverse_snoc. cbn [remove_dups].
  destruct (decide (k ∈ cmds)) as [Hin|Hout];
    destruct (decide_rel elem_of k (reverse cmds)) as [Hr|Hr];
    rewrite elem_of_reverse in Hr; try done.
  by rewrite reverse_cons.
Qed.

Lemma elem_of_first_occurrences (cmds : list string) (c : string) :
  c ∈ first_occurrences cmds <-> c ∈ cmds.
Proof.
  unfold first_occurrences.
  by rewrite elem_of_reverse, elem_of_remove_dups, elem_of_reverse.
Qed.

Lemma NoDup_first_occurrences (cmds : list string) :
  NoDup (first_occurrences cmds).
Proof.
  unfold first_occurrences. rewrite reverse_Permutation.
  apply NoDup_remove_dups.
Qed.

Lemma occurrences_snoc (c k : string) (cmds : list string) :
  occurrences c (cmds ++ [k])
  = if decide (c = k) then occurrences c cmds + 1 else occurrences c cmds.
Proof.
  unfold occurrences. rewrite filter_app, length_app.
  rewrite filter_cons, filter_nil.
  destruct (decide (c = k)) as [->|Hne].
  - rewrite decide_True by done. simpl. lia.
  - rewrite decide_False by done. simpl. lia.
Qed.

Lemma occurrences_absent (c : string) (cmds : list string) :
  c ∉ cmds -> occurrences c cmds = 0.
Proof.
  intros Hout. unfold occurrences.
  induction cmds as [|x cmds IH]; [done|].
  apply not_elem_of_cons in Hout as [Hne Hout].
  rewrite filter_cons, decide_False by done. by apply IH.
Qed.

Lemma command_frequency_table (history : list HistoryEntry) :
  let cmds := map h_command history in
  command_frequency history
  = table (fun c => occurrences c cmds) (first_occurrences cmds).
Proof.
  induction history as [|e history IH] using rev_ind; [done|].
  simpl in IH |- *. unfold command_frequency in *.
  rewrite fold_left_app. cbn [fold_left]. rewrite IH.
  rewrite map_app. cbn [map].
  set (cmds := map h_command history). set (k := h_command e).
  rewrite dict_get_table, dict_set_table by apply NoDup_first_occurrences.
  rewrite first_occurrences_snoc.
  destruct (decide (k ∈ first_occurrences cmds)) as [Hin|Hout].
  - rewrite decide_True by by apply elem_of_first_occurrences.
    apply table_ext. intros c Hc. rewrite occurrences_snoc.
    by destruct (decide (c = k)) as [->|].
  - rewrite decide_False by by rewrite <- elem_of_first_occurrences.
    unfold table. rewrite map_app. cbn [map]. f_equal.
    + apply table_ext. intros c Hc. rewrite occurrences_snoc.
      rewrite decide_False; [done|]. by intros ->.
    + rewrite occurrences_snoc, decide_True by done.
      rewrite occurrences_absent; [done|].
      by rewrite <- elem_of_first_occurrences.
Qed.

End Frequency.

Section FirstOccurrence.

Lemma first_index_lt (c : string) (cmds : list string) :
  c ∈ cmds -> (first_index c cmds < length cmds)%nat.
Proof.
  induction cmds as [|x cmds IH]; [by intros ?%elem_of_nil|].
  intros Hin. simpl. destruct (decide (x = c)) as [|Hne]; [lia|].
  apply elem_of_cons in Hin as [->|Hin]; [done|].
  specialize (IH Hin). lia.
Qed.

Lemma first_index_snoc_old (c k : string) (cmds : list string) :
  c ∈ cmds -> first_index c (cmds ++ [k]) = first_index c cmds.
Proof.
  induction cmds as [|x cmds IH]; [by intros ?%elem_of_nil|].
  intros Hin. simpl. destruct (decide (x = c)) as [|Hne]; [done|].
  apply elem_of_cons in Hin as [->|Hin]; [done|]. by rewrite IH.
Qed.

Lemma first_index_snoc_new (k : string) (cmds : list string) :
  k ∉ cmds -> first_index k (cmds ++ [k]) = length cmds.
Proof.
  induction cmds as [|x cmds IH]; intros Hout; simpl.
  - by rewrite decide_True.
  - apply not_elem_of_cons in Hout as [Hne Hout].
    rewrite decide_False by done. by rewrite IH.
Qed.

Lemma StronglySorted_on_members {A} (R R' : relation A) (l : list A) :
  (forall x y, x ∈ l -> y ∈ l -> R x y -> R' x y) ->
  StronglySorted R l -> StronglySorted R' l.
Proof.
  induction l as [|a l IH]; intros HR Hs; [constructor|].
  apply StronglySorted_cons in Hs as [Ha Hs].
  apply StronglySorted_cons. split.
  - rewrite Forall_forall in Ha |- *. intros y Hy.
    apply HR; [apply list_elem_of_here|by apply list_elem_of_further|auto].
  - apply IH; [|done]. intros x y Hx Hy.
    apply HR; by apply list_elem_of_further.
Qed.

Lemma first_occurrences_sorted (cmds : list string) :
  StronglySorted
    (fun c c' => (first_index c cmds < first_index c' cmds)%nat)
    (first_occurrences cmds).
Proof.
  induction cmds as [|k cmds IH] using rev_ind; [constructor|].
  rewrite first_occurrences_snoc.
  assert (Hold : StronglySorted
            (fun c c' => (first_index c (cmds ++ [k])
                          < first_index c' (cmds ++ [k]))%nat)
            (first_occurrences cmds)).
  { revert IH. apply StronglySorted_on_members. intros x y Hx Hy.
    rewrite elem_of_first_occurrences in Hx, Hy.
    by rewrite !first_index_snoc_old. }
  destruct (decide (k ∈ cmds)) as [Hin|Hout]; [done|].
  apply StronglySorted_app. split; [|split; [done|repeat constructor]].
  intros x y Hx ->%list_elem_of_singleton.
  rewrite elem_of_first_occurrences in Hx.
  rewrite first_index_snoc_old, first_index_snoc_new by done.
  by apply first_index_lt.
Qed.

End FirstOccurrence.

(** C9. On a non-empty history [learn_from_patterns] returns, and stores,
    patterns whose frequent commands are the first ten of a ranking of the
    history's commands: the ranking pairs each distinct command with the
    number of its occurrences in the whole history, in descending order of
    that number, and commands of equal number stand in the order of their
    first occurrences.  The result depends on the history alone. *)
Theorem C9_frequent_commands (self : AIAgentCore) :
  command_history self <> [] ->
  let cmds := map h_command (command_history self) in
  exists patterns ranking,
    (learn_from_patterns self).2 = Some patterns
    /\ learned_patterns (learn_from_patterns self).1 = Some patterns
    /\ frequent_commands patterns = take 10 ranking
    /\ NoDup (map fst ranking)
    /\ (forall c n, (c, n) ∈ ranking <-> c ∈ cmds /\ n = occurrences c cmds)
    /\ StronglySorted (ranks_before cmds) ranking
    /\ forall other : AIAgentCore,
        command_history other = command_history self ->
        (learn_from_patterns other).2 = Some patterns.
Proof.
  intros Hne cmds.
  set (items := map (fun c => (c, occurrences c cmds))
                    (first_occurrences cmds)).
  assert (Hfreq : command_frequency (command_history self) = items)
    by apply command_frequency_table.
  assert (Hlearn : forall other : AIAgentCore,
             command_history other = command_history self ->
             (learn_from_patterns other).2
             = Some {| frequent_commands := take 10 (sorted_desc items);
                       morning_commands := []; afternoon_commands := [];
                       evening_commands := [] |}
             /\ learned_patterns (learn_from_patterns other).1
                = (learn_from_patterns other).2).
  { intros other Hsame. unfold learn_from_patterns. rewrite Hsame.
    destruct (command_history self) eqn:E; [done|]. by rewrite Hfreq. }
  eexists _, (sorted_desc items).
  destruct (Hlearn self eq_refl) as [Hret Hstored].
  split; [exact Hret|]. split; [by rewrite Hstored|].
  split; [done|]. split; [|split; [|split]].
  - rewrite sorted_desc_perm. unfold items. rewrite map_map. simpl.
    rewrite map_id. apply NoDup_first_occurrences.
  - intros c n. rewrite sorted_desc_perm. unfold items.
    rewrite list_elem_of_fmap. setoid_rewrite elem_of_first_occurrences.
    split.
    + by intros (c' & [= -> ->] & Hin).
    + intros [Hin ->]. by exists c.
  - apply (sorted_desc_sorted
             (fun a b => (first_index a.1 cmds < first_index b.1 cmds)%nat)).
    unfold items.
    apply (StronglySorted_fmap _
             (fun c c' => (first_index c cmds < first_index c' cmds)%nat));
      [done|apply first_occurrences_sorted].
  - intros other Hsame. by destruct (Hlearn other Hsame).
Qed.

Definition agent_after_three : AIAgentCore :=
  process_commands (AIAgentCore_init None)
    [ {| c_command := "Launch camera"; c_context := None;
         c_t_result := "t0"; c_t_entry := "t1" |};
      {| c_command := "Open Gmail"; c_context := None;
         c_t_result := "t2"; c_t_entry := "t3" |};
      {| c_command := "Open Gmail"; c_context := None;
         c_t_result := "t4"; c_t_entry := "t5" |} ].

Example learn_after_three :
  frequent_commands <$> (learn_from_patterns agent_after_three).2
  = Some [("Open Gmail", 2); ("Launch camera", 1)].
Proof. vm_compute. reflexivity. Qed.

Lemma C9_frequent_commands_witness :
  exists patterns ranking,
    (learn_from_patterns agent_after_three).2 = Some patterns
    /\ learned_patterns (learn_from_patterns agent_after_three).1
       = Some patterns
    /\ frequent_commands patterns = take 10 ranking
    /\ NoDup (map fst ranking)
    /\ (forall c n,
           (c, n) ∈ ranking
           <-> c ∈ map h_command (command_history agent_after_three)
               /\ n = occurrences c
                        (map h_command (command_history agent_after_three)))
    /\ StronglySorted
         (ranks_before (map h_command (command_history agent_after_three)))
         ranking
    /\ forall other : AIAgentCore,
        command_history other = command_history agent_after_three ->
        (learn_from_patterns other).2 = Some patterns.
Proof.
  apply (C9_frequent_commands agent_after_three).
  vm_compute. discriminate.
Defined.

(** ** Substrings and normalization *)

(** [a] occurs in [b] as a contiguous run of characters. *)
Definition is_substring (a b : string) : Prop :=
  exists pre post, b = pre +:+ a +:+ post.

Section Substrings.

Lemma prefix_spec (a b : string) :
  String.prefix a b = true <-> exists post, b = a +:+ post.
Proof.
  revert b. induction a as [|x a IH]; intros b.
  - split; [intros _; by exists b|by destruct b].
  - setoid_rewrite append_cons. destruct b as [|y b]; simpl.
    + split; [done|]. by intros [post [=]].
    + destruct (Ascii.ascii_dec x y) as [->|Hne].
      * rewrite IH. split; intros [post H]; exists post; congruence.
      * split; [done|]. intros [post H]. congruence.
Qed.

Lemma contains_spec (a b : string) :
  contains a b = true <-> is_substring a b.
Proof.
  unfold is_substring. induction b as [|y b IH];
    rewrite contains_unfold, orb_true_iff, prefix_spec.
  - split.
    + intros [[post H]|]; [|done]. by exists "", post.
    + intros ([|] & post & H); [left; by exists post|done].
  - rewrite IH. split.
    + intros [[post H]|(pre & post & H)].
      * by exists "", post.
      * exists (String y pre), post. rewrite append_cons. by f_equal.
    + intros ([|x pre] & post & H).
      * left. by exists post.
      * right. exists pre, post. rewrite append_cons in H. congruence.
Qed.

Lemma contains_empty (b : string) : contains "" b = true.
Proof. apply contains_spec. by exists "", b. Qed.

Lemma is_space_lower_char (c : ascii) :
  is_space (lower_char c) = is_space c.
Proof.
  destruct c as [[] [] [] [] [] [] [] []]; reflexivity.
Qed.

Lemma lstrip_lower (s : string) : lstrip (lower s) = lower (lstrip s).
Proof.
  induction s as [|c s IH]; [done|]. simpl.
  rewrite is_space_lower_char. by destruct (is_space c).
Qed.

Lemma rstrip_lower (s : string) : rstrip (lower s) = lower (rstrip s).
Proof.
  induction s as [|c s IH]; [done|]. simpl. rewrite IH.
  destruct (rstrip s); simpl; [|done].
  rewrite is_space_lower_char. by destruct (is_space c).
Qed.

Lemma strip_lower (s : string) : strip (lower s) = lower (strip s).
Proof. unfold strip. by rewrite lstrip_lower, rstrip_lower. Qed.

Lemma mem_spec (x : string) (xs : list string) :
  mem x xs = true <-> x ∈ xs.
Proof.
  unfold mem. rewrite existsb_exists, list_elem_of_In.
  split.
  - by intros (y & Hy & ->%String.eqb_eq).
  - intros H. exists x. split; [done|]. apply String.eqb_refl.
Qed.

End Substrings.

Global Instance is_substring_dec (a b : string) : Decision (is_substring a b).
Proof.
  destruct (contains a b) eqn:E.
  - left. by apply contains_spec.
  - right. intros H%contains_spec. congruence.
Defined.

(** ** Trimming *)

(** The string is empty or starts with a character that is no white
    space. *)
Definition starts_clean (s : string) : bool :=
  match s with
  | EmptyString => true
  | String c _ => negb (is_space c)
  end.

(** The string is empty or ends with a character that is no white
    space. *)
Fixpoint ends_clean (s : string) : bool :=
  match s with
  | EmptyString => true
  | String c EmptyString => negb (is_space c)
  | String _ s' => ends_clean s'
  end.

(** Trimming, as the specification words it: [core] is what is left of
    [s] when the white space at both ends is taken away. *)
Definition trimmed (s core : string) : Prop :=
  exists ws1 ws2,
    s = ws1 +:+ core +:+ ws2
    /\ only_space ws1 = true /\ only_space ws2 = true
    /\ starts_clean core = true /\ ends_clean core = true.

Section Trimming.

Lemma lstrip_clean (s : string) : starts_clean (lstrip s) = true.
Proof.
  induction s as [|c s IH]; [done|]. simpl.
  destruct (is_space c) eqn:E; [done|]. simpl. by rewrite E.
Qed.

Lemma clean_lstrip (s : string) : starts_clean s = true -> lstrip s = s.
Proof. destruct s as [|c s]; [done|]. simpl. by destruct (is_space c). Qed.

Lemma rstrip_clean (s : string) :
  starts_clean s = true -> starts_clean (rstrip s) = true.
Proof.
  destruct s as [|c s]; [done|]. simpl. intros Hc.
  destruct (rstrip s); [|done]. destruct (is_space c) eqn:E; [done|].
  simpl. by rewrite E.
Qed.

Lemma lstrip_skip (ws x : string) :
  only_space ws = true -> lstrip (ws +:+ x) = lstrip x.
Proof.
  induction ws as [|c ws IH]; [done|].
  unfold only_space. cbn [list_ascii_of_string forallb].
  intros [Hc Hws]%andb_true_iff. rewrite append_cons. simpl.
  rewrite Hc. by apply IH.
Qed.

Lemma rstrip_blank (ws : string) : only_space ws = true -> rstrip ws = "".
Proof.
  induction ws as [|c ws IH]; [done|].
  unfold only_space. cbn [list_ascii_of_string forallb].
  intros [Hc Hws]%andb_true_iff. simpl. by rewrite (IH Hws), Hc.
Qed.

Lemma rstrip_padded (core ws : string) :
  ends_clean core = true -> only_space ws = true ->
  rstrip (core +:+ ws) = core.
Proof.
  intros Hcore Hws. induction core as [|c core IH]; [by apply rstrip_blank|].
  rewrite append_cons. cbn [rstrip]. destruct core as [|d core].
  - change ("" +:+ ws) with ws. rewrite (rstrip_blank ws Hws).
    simpl in Hcore. by destruct (is_space c).
  - by rewrite IH.
Qed.

Lemma lstrip_split (s : string) :
  exists ws, s = ws +:+ lstrip s /\ only_space ws = true.
Proof.
  induction s as [|c s (ws & Hs & Hws)]; [by exists ""|]. simpl.
  destruct (is_space c) eqn:Hc; [|by exists ""].
  exists (String c ws). rewrite append_cons, <- Hs. split; [done|].
  unfold only_space in *. simpl. by rewrite Hc.
Qed.

Lemma rstrip_split (s : string) :
  exists ws, s = rstrip s +:+ ws /\ only_space ws = true
             /\ ends_clean (rstrip s) = true.
Proof.
  induction s as [|c s (ws & Hs & Hws & Hend)]; [by exists ""|]. simpl.
  destruct (rstrip s) as [|d r] eqn:Hr.
  - change ("" +:+ ws) with ws in Hs. subst s.
    destruct (is_space c) eqn:Hc.
    + exists (String c ws). split; [done|]. split; [|done].
      unfold only_space in *. simpl. by rewrite Hc.
    + exists ws. split; [done|]. split; [done|]. simpl. by rewrite Hc.
  - exists ws. rewrite append_cons, <- Hs. done.
Qed.

Lemma strip_padded (ws1 core ws2 : string) :
  only_space ws1 = true -> only_space ws2 = true ->
  starts_clean core = true -> ends_clean core = true ->
  strip (ws1 +:+ core +:+ ws2) = core.
Proof.
  intros Hws1 Hws2 Hstart Hend. unfold strip. rewrite lstrip_skip by done.
  destruct core as [|c core].
  - change ("" +:+ ws2) with ws2.
    assert (only_space (lstrip ws2) = true) as Hl.
    { clear -Hws2. induction ws2 as [|c ws2 IH]; [done|].
      unfold only_space in Hws2. simpl in Hws2.
      apply andb_true_iff in Hws2 as [Hc Hws2]. simpl. rewrite Hc.
      by apply IH. }
    by apply rstrip_blank.
  - rewrite clean_lstrip.
    + by apply rstrip_padded.
    + rewrite append_cons. exact Hstart.
Qed.

Lemma strip_trimmed (s : string) : trimmed s (strip s).
Proof.
  unfold trimmed, strip.
  destruct (lstrip_split s) as (ws1 & Hs & Hws1).
  destruct (rstrip_split (lstrip s)) as (ws2 & Hl & Hws2 & Hend).
  exists ws1, ws2. rewrite <- Hl, <- Hs.
  repeat split; try done. apply rstrip_clean, lstrip_clean.
Qed.

Lemma trimmed_strip (s core : string) : trimmed s core -> strip s = core.
Proof.
  intros (ws1 & ws2 & -> & Hws1 & Hws2 & Hstart & Hend).
  by apply strip_padded.
Qed.

End Trimming.

(** ** The app launcher: resolution *)

(** The first entry of the catalogue, in its order, that satisfies [P]. *)
Definition first_hit (P : string * AppInfo -> Prop)
    `{forall e, Decision (P e)} (apps : Catalogue) : option AppInfo :=
  snd <$> head (filter P apps).

(** The resolution as the specification words it: three steps, each over the
    catalogue in its order, the first step with a hit deciding. *)
Definition resolve_spec (apps : Catalogue) (id : string) : option AppInfo :=
  match first_hit (fun e => e.1 = id) apps with
  | Some app => Some app
  | None =>
      match first_hit (fun e => lower (name e.2) = id) apps with
      | Some app => Some app
      | None =>
          first_hit (fun e => is_substring id e.1
                              \/ is_substring id (lower (name e.2))) apps
      end
  end.

Section Resolution.

Lemma first_hit_cons (P : string * AppInfo -> Prop)
    `{forall e, Decision (P e)} (e : string * AppInfo) (apps : Catalogue) :
  first_hit P (e :: apps)
  = if decide (P e) then Some e.2 else first_hit P apps.
Proof.
  unfold first_hit. rewrite filter_cons. by destruct (decide (P e)).
Qed.

Lemma catalogue_get_first_hit (apps : Catalogue) (id : string) :
  catalogue_get apps id = first_hit (fun e => e.1 = id) apps.
Proof.
  induction apps as [|[k app] apps IH]; [done|].
  rewrite first_hit_cons. simpl.
  destruct (String.eqb_spec k id) as [->|Hne].
  - by rewrite decide_True.
  - by rewrite decide_False.
Qed.

Lemma find_by_display_name_first_hit (apps : Catalogue) (id : string) :
  find_by_display_name apps id
  = first_hit (fun e => lower (name e.2) = id) apps.
Proof.
  induction apps as [|[k app] apps IH]; [done|].
  rewrite first_hit_cons. simpl.
  destruct (String.eqb_spec (lower (name app)) id) as [Heq|Hne].
  - by rewrite decide_True.
  - by rewrite decide_False.
Qed.

Lemma find_partial_first_hit (apps : Catalogue) (id : string) :
  find_partial apps id
  = first_hit (fun e => is_substring id e.1
                        \/ is_substring id (lower (name e.2))) apps.
Proof.
  induction apps as [|[k app] apps IH]; [done|].
  rewrite first_hit_cons. simpl.
  destruct (contains id (lower (name app))) eqn:En;
    destruct (contains id k) eqn:Ek; simpl.
  1-3: rewrite decide_True; [done|];
    rewrite <- !contains_spec; auto.
  rewrite decide_False; [done|].
  rewrite <- !contains_spec. intros [?|?]; congruence.
Qed.

Lemma _find_app_resolve_spec (apps : Catalogue) (key : string) :
  _find_app apps key = resolve_spec apps key.
Proof.
  unfold _find_app, resolve_spec.
  by rewrite catalogue_get_first_hit, find_by_display_name_first_hit,
    find_partial_first_hit.
Qed.

Lemma launch_result (self : AppLauncher) (id : string)
    (parameters : option Params) (t_stats t_result : string) :
  let r := (launch self id parameters t_stats t_result).2 in
  match _find_app (installed_apps self) (strip (lower id)) with
  | Some app =>
      l_success r = true /\ l_error r = None
      /\ l_app_name r = Some (name app)
      /\ l_package r = Some (package app)
      /\ l_category r = Some (AppCategory_value (category app))
  | None => l_success r = false
  end.
Proof.
  unfold launch. by destruct (_find_app _ _).
Qed.

End Resolution.

(** C6. [launch] normalizes the identifier by lower-casing and trimming, in
    either order: the normalized identifier is the lower-cased form of what
    is left of the identifier when the white space at both ends is taken
    away.  It resolves it in three steps over the catalogue in its order,
    the first hit deciding: the entry whose key is the identifier, then the
    first entry whose lower-cased display name is the identifier, then the
    first entry whose key or lower-cased display name has the identifier as
    a substring.  The launch succeeds with that entry, and fails when there
    is none.  On the launcher's catalogue "gmail", "Gmail" and "GMAIL", with
    any white space around them, all resolve to the entry of key "gmail". *)
Theorem C6_resolution_order :
  (forall id, strip (lower id) = lower (strip id))
  /\ (forall id, trimmed id (strip id))
  /\ (forall id core, trimmed id core -> strip (lower id) = lower core)
  /\ (forall apps key, _find_app apps key = resolve_spec apps key)
  /\ (forall self id parameters t_stats t_result,
         let r := (launch self id parameters t_stats t_result).2 in
         match resolve_spec (installed_apps self) (strip (lower id)) with
         | Some app =>
             l_success r = true /\ l_error r = None
             /\ l_app_name r = Some (name app)
             /\ l_package r = Some (package app)
             /\ l_category r = Some (AppCategory_value (category app))
         | None => l_success r = false
         end)
  /\ (forall self id parameters t_stats t_result,
         installed_apps self = _initialize_app_database ->
         id ∈ ["gmail"; "Gmail"; "GMAIL"] ->
         let r := (launch self id parameters t_stats t_result).2 in
         _find_app (installed_apps self) (strip (lower id))
         = catalogue_get (installed_apps self) "gmail"
         /\ l_success r = true
         /\ l_app_name r = Some "Gmail"
         /\ l_package r = Some "com.google.android.gm")
  /\ (forall self ws1 core ws2 parameters t_stats t_result,
         installed_apps self = _initialize_app_database ->
         core ∈ ["gmail"; "Gmail"; "GMAIL"] ->
         only_space ws1 = true ->
         only_space ws2 = true ->
         let r := (launch self (ws1 +:+ core +:+ ws2) parameters
                     t_stats t_result).2 in
         strip (lower (ws1 +:+ core +:+ ws2)) = "gmail"
         /\ l_success r = true
         /\ l_app_name r = Some "Gmail"
         /\ l_package r = Some "com.google.android.gm").
Proof.
  assert (Hgmail : forall self id parameters t_stats t_result,
             installed_apps self = _initialize_app_database ->
             strip (lower id) = "gmail" ->
             let r := (launch self id parameters t_stats t_result).2 in
             l_success r = true
             /\ l_app_name r = Some "Gmail"
             /\ l_package r = Some "com.google.android.gm").
  { intros self id parameters t_stats t_result Happs Hid r.
    pose proof (launch_result self id parameters t_stats t_result) as Hr.
    fold r in Hr. clearbody r. rewrite Happs, Hid in Hr.
    change (_find_app _initialize_app_database "gmail")
      with (Some {| name := "Gmail"; package := "com.google.android.gm";
                    category := COMMUNICATION; icon := "gmail_icon" |}) in Hr.
    cbn [name package] in Hr. tauto. }
  split; [exact strip_lower|]. split; [exact strip_trimmed|].
  split; [|split; [exact _find_app_resolve_spec|split; [|split]]].
  - intros id core Hcore. by rewrite strip_lower, (trimmed_strip id core).
  - intros self id parameters t_stats t_result.
    rewrite <- _find_app_resolve_spec. apply launch_result.
  - intros self id parameters t_stats t_result Happs Hid r.
    assert (Hnorm : strip (lower id) = "gmail").
    { apply list_elem_of_In in Hid. simpl in Hid.
      destruct Hid as [<-|[<-|[<-|[]]]]; vm_compute; reflexivity. }
    split; [by rewrite Hnorm, Happs|].
    by apply Hgmail.
  - intros self ws1 core ws2 parameters t_stats t_result Happs Hcore
      Hws1 Hws2 r.
    assert (Hnorm : strip (lower (ws1 +:+ core +:+ ws2)) = "gmail").
    { rewrite strip_lower.
      apply list_elem_of_In in Hcore. simpl in Hcore.
      destruct Hcore as [<-|[<-|[<-|[]]]];
        by rewrite strip_padded. }
    split; [done|]. by apply Hgmail.
Qed.

Lemma C6_resolution_order_witness :
  l_package (launch AppLauncher_init "  GMAIL " None "t0" "t1").2
  = Some "com.google.android.gm"
  /\ l_package (launch AppLauncher_init "Gmail" None "t0" "t1").2
     = Some "com.google.android.gm".
Proof.
  split.
  - refine (proj2 (proj2 (proj2
              (proj2 (proj2 (proj2 (proj2 (proj2 (proj2
                 C6_resolution_order)))))
                 AppLauncher_init "  " "GMAIL" " " None "t0" "t1"
                 eq_refl _ eq_refl eq_refl)))).
    apply list_elem_of_In. simpl. tauto.
  - refine (proj2 (proj2 (proj2
              (proj1 (proj2 (proj2 (proj2 (proj2 (proj2
                 C6_resolution_order)))))
                 AppLauncher_init "Gmail" None "t0" "t1" eq_refl _)))).
    apply list_elem_of_In. simpl. tauto.
Defined.

(** ** The app launcher: suggestions *)

(** The set of the characters of a string. *)
Definition chars (s : string) : gset ascii :=
  list_to_set (list_ascii_of_string s).

(** The Jaccard index of two sets: the size of the intersection over the
    size of the union. *)
Definition jaccard (a b : gset ascii) : Q :=
  (inject_Z (Z.of_nat (size (a ∩ b)))
   / inject_Z (Z.of_nat (size (a ∪ b))))%Q.

(** The catalogue entry [e] is suggested for the identifier [key]. *)
Definition suggested (key : string) (e : string * AppInfo) : Prop :=
  is_substring key e.1
  \/ is_substring key (lower (name e.2))
  \/ (1 # 2 < jaccard (chars key) (chars (lower e.1)))%Q.

Section Suggestions.

Lemma append_assoc (a b c : string) : (a +:+ b) +:+ c = a +:+ b +:+ c.
Proof.
  induction a as [|x a IH]; [done|]. rewrite !append_cons. by f_equal.
Qed.

Lemma not_found_error (id : string) :
  contains "not found" ("App '" +:+ id +:+ "' not found") = true.
Proof.
  apply contains_spec. exists ("App '" +:+ id +:+ "' "), "".
  by rewrite !append_assoc.
Qed.

Lemma lower_char_idemp (c : ascii) :
  lower_char (lower_char c) = lower_char c.
Proof. destruct c as [[] [] [] [] [] [] [] []]; reflexivity. Qed.

Lemma lower_idemp (s : string) : lower (lower s) = lower s.
Proof.
  induction s as [|c s IH]; [done|]. simpl.
  by rewrite lower_char_idemp, IH.
Qed.

Lemma normalized_lower (id : string) :
  lower (strip (lower id)) = strip (lower id).
Proof. by rewrite <- strip_lower, lower_idemp. Qed.

Lemma above_half_spec (q : Q) : above_half q = true <-> (1 # 2 < q)%Q.
Proof.
  unfold above_half. rewrite negb_true_iff. split.
  - intros H. apply Qnot_le_lt. intros Hle%Qle_bool_iff. congruence.
  - intros H. destruct (Qle_bool q (1 # 2)) eqn:E; [|done].
    apply Qle_bool_iff in E. by apply Qlt_not_le in H.
Qed.

Lemma similarity_jaccard (str1 str2 : string) :
  (_calculate_similarity str1 str2
   == jaccard (chars (lower str1)) (chars (lower str2)))%Q.
Proof.
  unfold _calculate_similarity, jaccard, char_set.
  fold (chars (lower str1)) (chars (lower str2)).
  set (i := size (chars (lower str1) ∩ chars (lower str2))).
  set (u := size (chars (lower str1) ∪ chars (lower str2))).
  destruct u as [|u].
  - simpl. unfold Qdiv, Qinv. simpl. by rewrite Qmult_0_r.
  - change (0 <? S u)%nat with true. cbv iota.
    rewrite Qmake_Qdiv, <- Pos.of_nat_succ, Zpos_P_of_succ_nat.
    by rewrite <- Nat2Z.inj_succ.
Qed.

Lemma suggested_test (key : string) (k : string) (app : AppInfo) :
  contains (strip (lower key)) k
  || contains (strip (lower key)) (lower (name app))
  || above_half (_calculate_similarity (strip (lower key)) k) = true
  <-> suggested (strip (lower key)) (k, app).
Proof.
  unfold suggested. rewrite !orb_true_iff, !contains_spec.
  rewrite above_half_spec, similarity_jaccard, normalized_lower.
  simpl. tauto.
Qed.

End Suggestions.

Global Instance suggested_dec (key : string) (e : string * AppInfo) :
  Decision (suggested key e).
Proof.
  unfold suggested.
  destruct (Qlt_le_dec (1 # 2) (jaccard (chars key) (chars (lower e.1))))
    as [Hlt|Hle].
  - left. auto.
  - destruct (decide (is_substring key e.1)) as [?|H1]; [left; auto|].
    destruct (decide (is_substring key (lower (name e.2)))) as [?|H2];
      [left; auto|].
    right. intros [?|[?|Hlt]]; [done..|]. by apply Qlt_not_le in Hlt.
Defined.

Lemma similar_loop_filter (apps : Catalogue) (id : string)
    (suggestions : list string) :
  similar_loop apps (strip (lower id)) suggestions
  = suggestions
    ++ map (fun e => name e.2) (filter (suggested (strip (lower id))) apps).
Proof.
  revert suggestions. induction apps as [|[k app] apps IH]; intros acc.
  - simpl. by rewrite app_nil_r.
  - cbn [similar_loop]. rewrite filter_cons.
    destruct (decide (suggested (strip (lower id)) (k, app))) as [Hs|Hs].
    + apply suggested_test in Hs. rewrite Hs, IH.
      by rewrite <- app_assoc.
    + rewrite <- suggested_test in Hs. apply not_true_is_false in Hs.
      by rewrite Hs, IH.
Qed.

(** C7. When the normalized identifier resolves to no catalogue entry,
    [launch] leaves the launcher as it was and fails with an error that
    contains "not found" and with at most five suggestions: the display
    names, in catalogue order, of the first entries for which the identifier
    is a substring of the key or of the lower-cased display name, or the
    Jaccard index of the character sets of the identifier and of the
    lower-cased key is above one half.  The keys of the launcher's own
    catalogue are in lower case. *)
Theorem C7_not_found_suggestions (self : AppLauncher) (id : string)
    (parameters : option Params) (t_stats t_result : string) :
  let key := strip (lower id) in
  _find_app (installed_apps self) key = None ->
  let r := (launch self id parameters t_stats t_result).2 in
  (launch self id parameters t_stats t_result).1 = self
  /\ l_success r = false
  /\ (exists e, l_error r = Some e /\ is_substring "not found" e)
  /\ (exists names,
         l_suggestions r = Some names
         /\ (length names <= 5)%nat
         /\ names = take 5 (map (fun e => name e.2)
                              (filter (suggested key) (installed_apps self)))
         /\ forall n, n ∈ names ->
              exists e, e ∈ installed_apps self /\ suggested key e
                        /\ n = name e.2)
  /\ Forall (fun e => lower e.1 = e.1) _initialize_app_database.
Proof.
  intros key Hnone r. unfold r, launch. fold key. rewrite Hnone.
  cbn [fst snd l_success l_error l_suggestions].
  split; [done|]. split; [done|]. split; [|split].
  - eexists. split; [done|]. apply contains_spec, not_found_error.
  - eexists. split; [done|].
    unfold _get_similar_apps, key. rewrite similar_loop_filter. simpl.
    split; [rewrite length_take; lia|]. split; [done|].
    intros n Hn. apply elem_of_take in Hn as (i & Hn & _).
    apply list_elem_of_lookup_2, list_elem_of_fmap in Hn as (e & -> & He).
    apply list_elem_of_filter in He as [Hs He]. by exists e.
  - repeat constructor.
Qed.

Example launch_anagram :
  l_suggestions (launch AppLauncher_init "LIAMG" None "t0" "t1").2
  = Some ["Gmail"].
Proof. vm_compute. reflexivity. Qed.

Lemma C7_not_found_suggestions_witness :
  l_success (launch AppLauncher_init "xyz123" None "t0" "t1").2 = false.
Proof.
  apply (C7_not_found_suggestions AppLauncher_init "xyz123" None "t0" "t1").
  vm_compute. reflexivity.
Defined.


(** C10. On the launcher's catalogue, an identifier whose normalization is
    the empty string never takes the not-found branch of [launch]: the empty
    string is a substring of every key, no key and no display name is empty,
    so the third resolution step stops at the first entry of the catalogue,
    and the launch succeeds with it. *)
Theorem C10_blank_identifier (self : AppLauncher) (id : string)
    (parameters : option Params) (t_stats t_result : string) :
  installed_apps self = _initialize_app_database ->
  strip (lower id) = "" ->
  let r := (launch self id parameters t_stats t_result).2 in
  (forall e, e ∈ installed_apps self -> is_substring "" e.1)
  /\ _find_app (installed_apps self) (strip (lower id))
     = snd <$> head (installed_apps self)
  /\ l_success r = true
  /\ l_error r = None
  /\ l_suggestions r = None
  /\ l_app_name r = Some "Gmail".
Proof.
  intros Happs Hblank r.
  assert (Hfind : _find_app (installed_apps self) (strip (lower id))
                  = snd <$> head (installed_apps self)).
  { rewrite Happs, Hblank. vm_compute. reflexivity. }
  split; [|split; [exact Hfind|]].
  - intros e _. apply contains_spec, contains_empty.
  - unfold r, launch. rewrite Hfind, Happs. by cbn.
Qed.

Lemma C10_blank_identifier_witness :
  l_success (launch AppLauncher_init "   " None "t0" "t1").2 = true.
Proof.
  apply (C10_blank_identifier AppLauncher_init "   " None "t0" "t1");
    reflexivity.
Defined.

(** ** The app launcher: favorites *)

(** C8 at a display name.  "Google Maps" normalizes to "google maps", which
    is no key of the catalogue, and [add_to_favorites] on a fresh launcher
    still returns true for it and lengthens the favorites: the resolution is
    not by exact key only. *)
Lemma C8_display_name_accepted :
  catalogue_get (installed_apps AppLauncher_init)
    (strip (lower "Google Maps")) = None
  /\ (add_to_favorites AppLauncher_init "Google Maps").2 = true
  /\ length (favorites (add_to_favorites AppLauncher_init "Google Maps").1)
     = 1%nat.
Proof. vm_compute. repeat split. Qed.

(** C8, amended. [add_to_favorites] normalizes the identifier and resolves
    it with the three resolution steps of [launch].  It returns false, and
    changes nothing, exactly when the identifier resolves to no catalogue
    entry or the normalized identifier is already a favorite; otherwise it
    returns true and the favorites list gains one entry at its end, the rest
    of the launcher unchanged.  When the normalized identifier is a
    catalogue key that is not yet a favorite, the entry added is that key,
    and adding it a second time returns false and changes nothing, so that
    the list has grown by one. *)
Theorem C8_add_to_favorites (self : AppLauncher) (id : string) :
  let key := strip (lower id) in
  let out := add_to_favorites self id in
  (out.2 = false
   <-> resolve_spec (installed_apps self) key = None \/ key ∈ favorites self)
  /\ (out.2 = false -> out.1 = self)
  /\ (out.2 = true ->
      installed_apps out.1 = installed_apps self
      /\ app_usage_stats out.1 = app_usage_stats self
      /\ recent_apps out.1 = recent_apps self
      /\ (exists entry, favorites out.1 = favorites self ++ [entry]))
  /\ (is_Some (catalogue_get (installed_apps self) key) ->
      key ∉ favorites self ->
      out.2 = true
      /\ favorites out.1 = favorites self ++ [key]
      /\ (add_to_favorites out.1 id).2 = false
      /\ (add_to_favorites out.1 id).1 = out.1
      /\ length (favorites (add_to_favorites out.1 id).1)
         = S (length (favorites self))).
Proof.
  intros key out. unfold out, add_to_favorites. fold key.
  rewrite <- _find_app_resolve_spec.
  pose proof (mem_spec key (favorites self)) as Hmem.
  split; [|split; [|split]].
  - destruct (_find_app (installed_apps self) key) as [app|];
      destruct (mem key (favorites self)); simpl; split.
    all: try done; try (intros _; by left).
    + intros _. right. by apply Hmem.
    + intros [?|Hin]; [done|]. apply Hmem in Hin. done.
  - destruct (_ && _); [done|]. by intros _.
  - destruct (_ && _); [|done]. intros _. simpl.
    repeat split. by eexists.
  - intros [app Hget] Hout.
    assert (Hfind : _find_app (installed_apps self) key = Some app).
    { unfold _find_app. by rewrite Hget. }
    assert (Hnot : mem key (favorites self) = false).
    { apply not_true_is_false. by rewrite Hmem. }
    rewrite Hfind, Hnot. cbn [bool_decide andb negb fst snd favorites
                               installed_apps].
    rewrite bool_decide_true by by eexists.
    cbn [andb fst snd favorites installed_apps].
    fold key. rewrite Hfind.
    assert (Hnow : mem key (favorites self ++ [key]) = true).
    { apply mem_spec, elem_of_app. right. by apply list_elem_of_singleton. }
    rewrite Hnow. rewrite bool_decide_true by by eexists.
    cbn [andb negb fst snd favorites].
    repeat split. rewrite length_app. simpl. lia.
Qed.

Lemma C8_add_to_favorites_witness :
  (add_to_favorites AppLauncher_init "Gmail ").2 = true
  /\ (add_to_favorites (add_to_favorites AppLauncher_init "Gmail ").1
        "Gmail ").2 = false.
Proof.
  destruct (proj2 (proj2 (proj2
              (C8_add_to_favorites AppLauncher_init "Gmail "))))
    as (H1 & _ & H2 & _).
  - by eexists.
  - apply not_elem_of_nil.
  - split; [exact H1|exact H2].
Defined.

(** ** The app launcher: usage statistics and the recent list *)

(** The launch count recorded for [k]; none recorded counts as zero. *)
Definition count_of (stats : gmap string UsageStats) (k : string) : Z :=
  from_option launch_count 0 (stats !! k).

(** The operations of a session on one launcher. *)
Inductive Op : Type :=
| OpLaunch (id : string) (parameters : option Params)
    (t_stats t_result : string)
| OpAddToFavorites (id : string)
| OpSwitchToRecent (index : Z) (t_stats t_result : string)
| OpGetRecentApps
| OpGetFavorites
| OpGetAppsByCategory (c : AppCategory).

(** The launcher after one operation; a call that raises, and the
    projections, leave it as it was. *)
Definition step (self : AppLauncher) (op : Op) : AppLauncher :=
  match op with
  | OpLaunch id parameters t_stats t_result =>
      (launch self id parameters t_stats t_result).1
  | OpAddToFavorites id => (add_to_favorites self id).1
  | OpSwitchToRecent index t_stats t_result =>
      match switch_to_recent self index t_stats t_result with
      | Returned out => out.1
      | Raised _ => self
      end
  | OpGetRecentApps | OpGetFavorites | OpGetAppsByCategory _ => self
  end.

Definition run (ops : list Op) (self : AppLauncher) : AppLauncher :=
  fold_left step ops self.

(** What holds of the lists of a launcher throughout a session. *)
Record launcher_inv (self : AppLauncher) : Prop := {
  inv_catalogue : installed_apps self = _initialize_app_database;
  inv_recent_length : (length (recent_apps self) <= 20)%nat;
  inv_recent_nodup : NoDup (recent_apps self);
  inv_favorites_nodup : NoDup (favorites self);
  inv_favorites_resolve :
    forall f, f ∈ favorites self ->
              is_Some (_find_app (installed_apps self) f)
}.

Section Session.

Lemma count_of_update (stats : gmap string UsageStats) (key now k : string) :
  count_of (_update_usage_stats stats key now) k
  = count_of stats k + (if decide (k = key) then 1 else 0).
Proof.
  unfold count_of, _update_usage_stats.
  destruct (stats !! key) as [st|] eqn:Hkey.
  - rewrite Hkey. destruct (decide (k = key)) as [->|Hne].
    + rewrite lookup_insert_eq, Hkey. done.
    + rewrite lookup_insert_ne by done. lia.
  - rewrite lookup_insert_eq. destruct (decide (k = key)) as [->|Hne].
    + rewrite lookup_insert_eq, Hkey. done.
    + rewrite !lookup_insert_ne by done. lia.
Qed.

Lemma last_used_update (stats : gmap string UsageStats) (key now : string) :
  last_used <$> _update_usage_stats stats key now !! key = Some (Some now).
Proof.
  unfold _update_usage_stats.
  destruct (stats !! key) as [st|] eqn:Hkey.
  - by rewrite Hkey, lookup_insert_eq.
  - by rewrite !lookup_insert_eq.
Qed.

Lemma list_remove_first_sublist (x : string) (l : list string) :
  list_remove_first x l `sublist_of` l.
Proof.
  induction l as [|y l IH]; simpl; [constructor|].
  destruct (String.eqb y x); [by apply sublist_cons|by apply sublist_skip].
Qed.

Lemma list_remove_first_gone (x : string) (l : list string) :
  NoDup l -> x ∉ list_remove_first x l.
Proof.
  induction l as [|y l IH]; intros Hnd; simpl; [apply not_elem_of_nil|].
  apply NoDup_cons in Hnd as [Hy Hnd].
  destruct (String.eqb_spec y x) as [->|Hne]; [done|].
  apply not_elem_of_cons. split; [done|by apply IH].
Qed.

Lemma _add_to_recent_inv (recent : list string) (key : string) :
  NoDup recent ->
  NoDup (_add_to_recent recent key)
  /\ (length (_add_to_recent recent key) <= 20)%nat
  /\ head (_add_to_recent recent key) = Some key.
Proof.
  intros Hnd. unfold _add_to_recent. split; [|split].
  - eapply sublist_NoDup; [|apply sublist_take].
    apply NoDup_cons. destruct (mem key recent) eqn:Hmem.
    + split; [by apply list_remove_first_gone|].
      eapply sublist_NoDup; [exact Hnd|apply list_remove_first_sublist].
    + split; [|done]. rewrite <- mem_spec. congruence.
  - rewrite length_take. lia.
  - done.
Qed.

Lemma launch_inv (self : AppLauncher) (id : string)
    (parameters : option Params) (t_stats t_result : string) :
  launcher_inv self ->
  launcher_inv (launch self id parameters t_stats t_result).1.
Proof.
  intros [Hc Hl Hr Hf Hfr]. unfold launch.
  destruct (_find_app _ _); [|by constructor].
  destruct (_add_to_recent_inv (recent_apps self) (strip (lower id)) Hr)
    as (Hnd & Hlen & _).
  by constructor.
Qed.

Lemma launch_count_mono (self : AppLauncher) (id : string)
    (parameters : option Params) (t_stats t_result k : string) :
  count_of (app_usage_stats self) k
  <= count_of (app_usage_stats
                 (launch self id parameters t_stats t_result).1) k.
Proof.
  unfold launch. destruct (_find_app _ _); [|done]. cbn [fst app_usage_stats].
  rewrite count_of_update. destruct (decide _); lia.
Qed.

Lemma add_to_favorites_inv (self : AppLauncher) (id : string) :
  launcher_inv self -> launcher_inv (add_to_favorites self id).1.
Proof.
  intros [Hc Hl Hr Hf Hfr]. unfold add_to_favorites.
  destruct (bool_decide _) eqn:Hfound; [|by constructor].
  destruct (mem _ _) eqn:Hmem; [by constructor|].
  apply bool_decide_eq_true in Hfound.
  constructor; cbn; try done.
  - apply NoDup_app. split; [done|]. split; [|apply NoDup_singleton].
    intros x Hx ->%list_elem_of_singleton.
    apply mem_spec in Hx. congruence.
  - intros f [Hin| ->%list_elem_of_singleton]%elem_of_app; auto.
Qed.

Lemma switch_to_recent_cases (self : AppLauncher) (index : Z)
    (t_stats t_result : string) :
  (exists exc, switch_to_recent self index t_stats t_result = Raised exc)
  \/ switch_to_recent self index t_stats t_result
     = Returned (self, invalid_index)
  \/ exists key,
      key ∈ recent_apps self
      /\ switch_to_recent self index t_stats t_result
         = Returned (launch self key None t_stats t_result).
Proof.
  unfold switch_to_recent.
  destruct (index >=? _); [by right; left|].
  destruct (_ <? 0); [left; by eexists|].
  destruct (recent_apps self !! _) as [key|] eqn:Hkey; [|left; by eexists].
  right. right. exists key. split; [|done].
  by eapply list_elem_of_lookup_2.
Qed.

Lemma step_inv (self : AppLauncher) (op : Op) :
  launcher_inv self -> launcher_inv (step self op).
Proof.
  intros Hinv. destruct op; simpl; try done.
  - by apply launch_inv.
  - by apply add_to_favorites_inv.
  - destruct (switch_to_recent_cases self index t_stats t_result)
      as [[exc ->]|[->|(key & _ & ->)]]; try done.
    by apply launch_inv.
Qed.

Lemma step_count_mono (self : AppLauncher) (op : Op) (k : string) :
  count_of (app_usage_stats self) k
  <= count_of (app_usage_stats (step self op)) k.
Proof.
  destruct op; simpl; try done.
  - apply launch_count_mono.
  - unfold add_to_favorites. by case_match.
  - destruct (switch_to_recent_cases self index t_stats t_result)
      as [[exc ->]|[->|(key & _ & ->)]]; try done.
    apply launch_count_mono.
Qed.

Lemma run_inv (ops : list Op) (self : AppLauncher) :
  launcher_inv self -> launcher_inv (run ops self).
Proof.
  revert self. induction ops as [|op ops IH]; intros self Hinv; [done|].
  apply IH. by apply step_inv.
Qed.

Lemma run_count_mono (ops : list Op) (self : AppLauncher) (k : string) :
  count_of (app_usage_stats self) k
  <= count_of (app_usage_stats (run ops self)) k.
Proof.
  revert self. induction ops as [|op ops IH]; intros self; [done|].
  etrans; [apply (step_count_mono self op)|apply IH].
Qed.

Lemma init_inv : launcher_inv AppLauncher_init.
Proof.
  constructor; simpl; try done; try lia; try apply NoDup_nil_2.
  by intros f ?%elem_of_nil.
Qed.

End Session.

(** X24. The part of the session invariants that the launcher does keep:
    after any sequence of operations on a fresh launcher the recent list has
    at most 20 entries and no duplicate, the favorites have no duplicate and
    each of them resolves to a catalogue entry, and no launch count ever
    decreases as the session goes on. *)
Theorem session_invariants (ops more : list Op) (k : string) :
  let s := run ops AppLauncher_init in
  (length (recent_apps s) <= 20)%nat
  /\ NoDup (recent_apps s)
  /\ NoDup (favorites s)
  /\ (forall f, f ∈ favorites s -> is_Some (_find_app (installed_apps s) f))
  /\ count_of (app_usage_stats s) k
     <= count_of (app_usage_stats (run (ops ++ more) AppLauncher_init)) k.
Proof.
  intros s. destruct (run_inv ops AppLauncher_init init_inv) as [? ? ? ? ?].
  repeat split; try done.
  unfold run. rewrite fold_left_app. apply run_count_mono.
Qed.

(** What a successful [launch] records, in terms of the normalized
    identifier: its launch count goes up by one, the other counts stay, its
    last use is the clock reading, and it goes to the front of the recent
    list, a former occurrence removed and the list cut at 20. *)
Lemma launch_records (self : AppLauncher) (id : string)
    (parameters : option Params) (t_stats t_result : string) :
  let key := strip (lower id) in
  let after := (launch self id parameters t_stats t_result).1 in
  is_Some (_find_app (installed_apps self) key) ->
  installed_apps after = installed_apps self
  /\ count_of (app_usage_stats after) key
     = count_of (app_usage_stats self) key + 1
  /\ (forall k, k <> key ->
                count_of (app_usage_stats after) k
                = count_of (app_usage_stats self) k)
  /\ last_used <$> app_usage_stats after !! key = Some (Some t_stats)
  /\ recent_apps after
     = take 20 (key :: if mem key (recent_apps self)
                       then list_remove_first key (recent_apps self)
                       else recent_apps self).
Proof.
  intros key after [app Hfind]. unfold after, launch. fold key.
  rewrite Hfind. cbn [fst installed_apps app_usage_stats recent_apps].
  split; [done|]. split; [|split; [|split]].
  - rewrite count_of_update, decide_True by done. done.
  - intros k Hne. rewrite count_of_update, decide_False by done. lia.
  - apply last_used_update.
  - done.
Qed.

(** X25. Launching the same resolvable identifier [n] times on a fresh
    launcher leaves the count [n] under the normalized identifier. *)
Lemma launch_n_times (n : nat) (id : string) (t_stats t_result : string) :
  is_Some (_find_app _initialize_app_database (strip (lower id))) ->
  let again := fun s => (launch s id None t_stats t_result).1 in
  count_of (app_usage_stats (Nat.iter n again AppLauncher_init))
    (strip (lower id)) = Z.of_nat n.
Proof.
  intros Hfind again.
  assert (H : installed_apps (Nat.iter n again AppLauncher_init)
              = _initialize_app_database
              /\ count_of (app_usage_stats (Nat.iter n again AppLauncher_init))
                   (strip (lower id)) = Z.of_nat n).
  { induction n as [|n [IHc IHn]]; [done|].
    change (Nat.iter (S n) again AppLauncher_init)
      with (again (Nat.iter n again AppLauncher_init)).
    set (s := Nat.iter n again AppLauncher_init) in *.
    unfold again. cbv beta.
    destruct (launch_records s id None t_stats t_result)
      as (Hc & Hcount & _).
    { by rewrite IHc. }
    split; [by rewrite Hc|]. rewrite Hcount, IHn. lia. }
  by destruct H.
Qed.

(** C3 at an identifier that resolves by display name.  [launch] of
    "Google Maps" on a fresh launcher succeeds with the catalogue entry of
    key "maps", yet no statistics are recorded for "maps": the count and the
    recent entry go under "google maps", which is no catalogue key, so that
    [get_recent_apps] shows nothing. *)
Theorem C3_stats_under_identifier :
  let out := launch AppLauncher_init "Google Maps" None "t0" "t1" in
  l_success out.2 = true
  /\ l_package out.2 = Some "com.google.android.apps.maps"
  /\ _find_app _initialize_app_database (strip (lower "Google Maps"))
     = catalogue_get _initialize_app_database "maps"
  /\ count_of (app_usage_stats out.1) "maps" = 0
  /\ app_usage_stats out.1 !! "maps" = None
  /\ count_of (app_usage_stats out.1) "google maps" = 1
  /\ recent_apps out.1 = ["google maps"]
  /\ catalogue_get (installed_apps out.1) "google maps" = None
  /\ get_recent_apps out.1 = [].
Proof. vm_compute. repeat split. Qed.

(** C4 at an identifier that resolves by display name.
    [add_to_favorites] of "Google Maps" on a fresh launcher returns true and
    stores "google maps", which is no key of the catalogue, and
    [get_favorites] then shows nothing. *)
Theorem C4_favorite_outside_catalogue :
  let s := run [OpAddToFavorites "Google Maps"] AppLauncher_init in
  (add_to_favorites AppLauncher_init "Google Maps").2 = true
  /\ favorites s = ["google maps"]
  /\ catalogue_get (installed_apps s) "google maps" = None
  /\ get_favorites s = [].
Proof. vm_compute. repeat split. Qed.

(** * Further properties of the command router *)

(** The priority of an intent in [_analyze_intent]. *)
Definition intent_rank (t : CommandType) : nat :=
  match t with
  | AUTOMATION => 4
  | LAUNCH_APP => 3
  | SYSTEM_CONTROL => 2
  | QUERY => 1
  | INTEGRATION => 0
  end.

Section Tokens.

Lemma append_empty_r (s : string) : s +:+ "" = s.
Proof. induction s as [|c s IH]; [done|]. by rewrite append_cons, IH. Qed.

Lemma lower_append (a b : string) : lower (a +:+ b) = lower a +:+ lower b.
Proof.
  induction a as [|c a IH]; [done|].
  rewrite append_cons. cbn [lower]. by rewrite append_cons, IH.
Qed.

Lemma is_substring_refl (s : string) : is_substring s s.
Proof. exists "", "". by rewrite append_empty_r. Qed.

Lemma is_substring_extend (k s pre post : string) :
  is_substring k s -> is_substring k (pre +:+ s +:+ post).
Proof.
  intros (p & q & ->). exists (pre +:+ p), (q +:+ post).
  by rewrite !append_assoc.
Qed.

Lemma is_substring_lower (k s : string) :
  is_substring k s -> is_substring (lower k) (lower s).
Proof.
  intros (p & q & ->). exists (lower p), (lower q).
  by rewrite !lower_append.
Qed.

Lemma any_in_extend (ks : list string) (s pre post : string) :
  any_in ks (lower s) = true ->
  any_in ks (lower (pre +:+ s +:+ post)) = true.
Proof.
  rewrite !any_in_spec. intros (k & Hk & Hc). exists k. split; [done|].
  apply contains_spec. rewrite !lower_append.
  by apply is_substring_extend, contains_spec.
Qed.

Lemma string_of_list_ascii_snoc (l : list ascii) (c : ascii) (s : string) :
  string_of_list_ascii (l ++ [c]) +:+ s
  = string_of_list_ascii l +:+ String c s.
Proof.
  induction l as [|a l IH]; [done|].
  cbn [app string_of_list_ascii]. by rewrite !append_cons, IH.
Qed.

Lemma split_aux_substring (cur : list ascii) (s w : string) :
  w ∈ split_aux cur s ->
  is_substring w (string_of_list_ascii (rev cur) +:+ s).
Proof.
  revert cur. induction s as [|c s IH]; intros cur; cbn [split_aux].
  - destruct cur as [|a cur]; [by intros ?%elem_of_nil|].
    intros ->%list_elem_of_singleton. rewrite append_empty_r.
    apply is_substring_refl.
  - destruct (is_space c).
    + rewrite elem_of_app. intros [H|H].
      * destruct cur as [|a cur]; [by apply elem_of_nil in H|].
        apply list_elem_of_singleton in H as ->. by exists "", (String c s).
      * apply (IH []) in H. destruct H as (p & q & H).
        cbn [rev string_of_list_ascii] in H.
        exists (string_of_list_ascii (rev cur) +:+ String c p), q.
        rewrite append_assoc, append_cons. by rewrite <- H.
    + intros H%IH. cbn [rev] in H. by rewrite string_of_list_ascii_snoc in H.
Qed.

Lemma split_substring (s w : string) : w ∈ split s -> is_substring w s.
Proof. intros H. by apply (split_aux_substring []) in H. Qed.

Lemma has_space_of_list (l : list ascii) :
  has_space (string_of_list_ascii l) = existsb is_space l.
Proof.
  unfold has_space. by rewrite list_ascii_of_string_of_list_ascii.
Qed.

Lemma existsb_rev {A} (f : A -> bool) (l : list A) :
  existsb f (rev l) = existsb f l.
Proof.
  induction l as [|a l IH]; [done|]. simpl.
  rewrite existsb_app, IH. simpl. by destruct (f a), (existsb f l).
Qed.

Lemma split_aux_no_space (cur : list ascii) (s w : string) :
  existsb is_space cur = false ->
  w ∈ split_aux cur s -> has_space w = false.
Proof.
  revert cur. induction s as [|c s IH]; intros cur Hcur; cbn [split_aux].
  - destruct cur as [|a cur]; [by intros ?%elem_of_nil|].
    intros ->%list_elem_of_singleton.
    by rewrite has_space_of_list, existsb_rev.
  - destruct (is_space c) eqn:Hc.
    + rewrite elem_of_app. intros [H|H]; [|by apply (IH [])].
      destruct cur as [|a cur]; [by apply elem_of_nil in H|].
      apply list_elem_of_singleton in H as ->.
      by rewrite has_space_of_list, existsb_rev.
    + apply IH. simpl. by rewrite Hc.
Qed.

End Tokens.

(** X1. Keywords are looked for anywhere in the text, so putting a command
    inside a longer text never lowers the priority of its intent: what is
    AUTOMATION stays AUTOMATION, a LAUNCH_APP command can only stay or become
    AUTOMATION, and so on down to INTEGRATION. *)
Theorem intent_rank_monotone (pre s post : string) :
  (intent_rank (_analyze_intent s)
   <= intent_rank (_analyze_intent (pre +:+ s +:+ post)))%nat.
Proof.
  unfold _analyze_intent.
  pose proof (any_in_extend automation_keywords s pre post) as Ha.
  pose proof (any_in_extend launch_keywords s pre post) as Hl.
  pose proof (any_in_extend control_keywords s pre post) as Hc.
  pose proof (any_in_extend query_keywords s pre post) as Hq.
  destruct (any_in automation_keywords (lower s));
    [rewrite Ha by done; simpl; lia|].
  destruct (any_in automation_keywords (lower (pre +:+ s +:+ post)));
    [simpl; repeat case_match; simpl; lia|].
  destruct (any_in launch_keywords (lower s));
    [rewrite Hl by done; simpl; lia|].
  destruct (any_in launch_keywords (lower (pre +:+ s +:+ post)));
    [simpl; repeat case_match; simpl; lia|].
  destruct (any_in control_keywords (lower s));
    [rewrite Hc by done; simpl; lia|].
  destruct (any_in control_keywords (lower (pre +:+ s +:+ post)));
    [simpl; repeat case_match; simpl; lia|].
  destruct (any_in query_keywords (lower s));
    [rewrite Hq by done; simpl; lia|].
  simpl. repeat case_match; simpl; lia.
Qed.

Section Entities.

Lemma extract_loop_entities (pre rest : list string) (ents : Entities) :
  extract_loop (pre ++ rest) (length pre) rest ents
  = match list_find (fun w => is_launch_verb w = true) rest with
    | Some (j, w) =>
        match (pre ++ rest) !! S (length pre + j) with
        | Some a => {| e_app_name := Some a; e_action := Some (lower w);
                       e_parameters := e_parameters ents |}
        | None => ents
        end
    | None => ents
    end.
Proof.
  revert pre. induction rest as [|word rest IH]; intros pre; [done|].
  cbn [extract_loop list_find]. fold (is_launch_verb word).
  assert (Hnext : extract_loop (pre ++ word :: rest) (S (length pre)) rest ents
                  = extract_loop ((pre ++ [word]) ++ rest)
                                 (length (pre ++ [word])) rest ents).
  { rewrite <- app_assoc, length_app. simpl. by rewrite Nat.add_1_r. }
  destruct (is_launch_verb word) eqn:Everb.
  - rewrite decide_True by done. cbn [fmap option_fmap option_map].
    rewrite Nat.add_0_r.
    destruct (length pre + 1 <? length (pre ++ word :: rest))%nat eqn:Elt.
    + apply Nat.ltb_lt in Elt. rewrite Nat.add_1_r in *.
      destruct (lookup_lt_is_Some_2 (pre ++ word :: rest) (S (length pre)) Elt)
        as [w Hw].
      rewrite Hw. by rewrite (nth_lookup_Some _ _ "" w Hw).
    + apply Nat.ltb_ge in Elt. rewrite length_app in Elt. simpl in Elt.
      destruct rest; [|simpl in Elt; lia].
      simpl. rewrite lookup_ge_None_2; [done|].
      rewrite length_app. simpl. lia.
  - rewrite decide_False by done. rewrite Hnext, IH.
    destruct (list_find _ rest) as [[j w]|]; simpl; [|done].
    rewrite <- app_assoc, length_app. simpl.
    by replace (length pre + 1 + j)%nat with (length pre + S j)%nat by lia.
Qed.

Lemma is_launch_verb_keyword (w : string) :
  is_launch_verb w = true <-> lower w ∈ launch_keywords.
Proof. apply mem_spec. Qed.

End Entities.

(** X2. What [_extract_entities] returns: either no app name and no action,
    or the action is the lower-cased first token that is a launch verb and
    the app name is the token right after it, as written; that token is not
    empty, has no white space, and occurs in the command.  The parameters
    are always empty. *)
Theorem extracted_entities_shape (command : string) :
  let ents := _extract_entities command in
  e_parameters ents = []
  /\ ((e_app_name ents = None /\ e_action ents = None)
      \/ exists i w a,
          split command !! i = Some w
          /\ split command !! S i = Some a
          /\ (forall j v, split command !! j = Some v -> (j < i)%nat ->
                          lower v ∉ ["open"; "launch"; "start"])
          /\ lower w ∈ ["open"; "launch"; "start"]
          /\ e_action ents = Some (lower w)
          /\ e_app_name ents = Some a
          /\ a <> ""
          /\ has_space a = false
          /\ is_substring a command).
Proof.
  intros ents. unfold ents, _extract_entities.
  rewrite (extract_loop_entities [] (split command)). cbn [app length].
  destruct (list_find _ _) as [[i w]|] eqn:Hfind; [|split; [done|by left]].
  apply list_find_Some in Hfind as (Hw & Hverb & Hfirst).
  destruct (split command !! S (0 + i)) as [a|] eqn:Ha;
    [|split; [done|by left]].
  simpl in Ha. split; [done|]. right. exists i, w, a.
  pose proof (list_elem_of_lookup_2 _ _ _ Ha) as Hin.
  repeat split; try done.
  - intros j v Hv Hlt Hkw. apply (Hfirst j v Hv Hlt).
    by apply is_launch_verb_keyword.
  - by apply is_launch_verb_keyword.
  - by apply (split_aux_nonempty [] command).
  - by apply (split_aux_no_space [] command).
  - by apply split_substring.
Qed.

(** X3. An app name is extracted only from a command that is classified
    AUTOMATION or LAUNCH_APP: a token that is a launch verb puts a launch
    keyword into the lower-cased text.  For the other three intents the
    extraction finds nothing. *)
Theorem extraction_needs_launch_keyword (command : string) :
  _analyze_intent command = AUTOMATION
  \/ _analyze_intent command = LAUNCH_APP
  \/ _extract_entities command
     = {| e_app_name := None; e_action := None; e_parameters := [] |}.
Proof.
  unfold _extract_entities.
  rewrite (extract_loop_entities [] (split command)). cbn [app length].
  destruct (list_find _ _) as [[i w]|] eqn:Hfind; [|by right; right].
  apply list_find_Some in Hfind as (Hw & Hverb & _).
  assert (Hkw : any_in launch_keywords (lower command) = true).
  { apply any_in_spec. exists (lower w).
    split; [by apply is_launch_verb_keyword|].
    apply contains_spec, is_substring_lower, split_substring.
    by eapply list_elem_of_lookup_2. }
  unfold _analyze_intent. rewrite Hkw.
  destruct (any_in automation_keywords _); auto.
Qed.

(** ** Suggestions, clearing, and sessions of the agent *)

(** [get_suggestions]: the patterns are learned only while none are stored;
    the suggestions are the first five frequent commands of the stored
    patterns. *)
Definition get_suggestions (self : AIAgentCore) (context : ContextDict)
    : AIAgentCore * list string :=
  let self1 :=
    match learned_patterns self with
    | None => (learn_from_patterns self).1
    | Some _ => self
    end in
  let suggestions :=
    match learned_patterns self1 with
    | Some patterns => map fst (take 5 (frequent_commands patterns))
    | None => []
    end in
  (self1, suggestions).

(** The operations of a session on one agent. *)
Inductive AgentOp : Type :=
| AProcess (c : Call)
| ALearn
| ASuggest (context : ContextDict)
| AExport (filepath : string) (writable : bool) (now : string)
| AClear.

Definition agent_step (self : AIAgentCore) (op : AgentOp) : AIAgentCore :=
  match op with
  | AProcess c => process_call self c
  | ALearn => (learn_from_patterns self).1
  | ASuggest context => (get_suggestions self context).1
  | AExport _ _ _ => self
  | AClear => (clear_data self).1
  end.

Definition agent_run (ops : list AgentOp) (self : AIAgentCore)
    : AIAgentCore :=
  fold_left agent_step ops self.

(** The bound on the history that the configuration asks for. *)
Definition history_bound (cfg : Config) : Z := default 1000 (max_history cfg).

Section AgentSession.

Lemma process_call_history (self : AIAgentCore) (c : Call) :
  default false (learning_enabled (config self)) = true ->
  let h := command_history self ++ [history_entry_of c] in
  command_history (process_call self c)
  = if Z.of_nat (length h) >? history_bound (config self)
    then py_slice_from (- history_bound (config self)) h
    else h.
Proof.
  intros Hon. unfold process_call, process_command. by rewrite Hon.
Qed.

Lemma process_call_keeps (self : AIAgentCore) (c : Call) :
  config (process_call self c) = config self
  /\ learned_patterns (process_call self c) = learned_patterns self.
Proof.
  unfold process_call, process_command. by destruct (default false _).
Qed.

Lemma process_commands_keeps (calls : list Call) (self : AIAgentCore) :
  config (process_commands self calls) = config self
  /\ learned_patterns (process_commands self calls) = learned_patterns self.
Proof.
  revert self. induction calls as [|c calls IH]; intros self; [done|].
  cbn [process_commands fold_left].
  fold (process_commands (process_call self c) calls).
  destruct (IH (process_call self c)) as [-> ->]. apply process_call_keeps.
Qed.

Lemma learn_keeps (self : AIAgentCore) :
  config (learn_from_patterns self).1 = config self
  /\ command_history (learn_from_patterns self).1 = command_history self.
Proof.
  unfold learn_from_patterns. destruct (command_history self) eqn:E; [done|].
  simpl. done.
Qed.

Lemma get_suggestions_keeps (self : AIAgentCore) (context : ContextDict) :
  config (get_suggestions self context).1 = config self
  /\ command_history (get_suggestions self context).1
     = command_history self.
Proof.
  unfold get_suggestions. cbn [fst].
  destruct (learned_patterns self); [done|]. apply learn_keeps.
Qed.

Lemma agent_step_bound (self : AIAgentCore) (op : AgentOp) :
  0 < history_bound (config self) ->
  Z.of_nat (length (command_history self)) <= history_bound (config self) ->
  config (agent_step self op) = config self
  /\ Z.of_nat (length (command_history (agent_step self op)))
     <= history_bound (config self).
Proof.
  intros Hpos Hlen. destruct op as [c| |context|? ? ?|]; cbn [agent_step].
  - destruct (process_call_keeps self c) as [Hc _]. split; [done|].
    destruct (default false (learning_enabled (config self))) eqn:Hon.
    + rewrite (process_call_history self c Hon). cbv zeta.
      rewrite (bounded_slice _ Hpos), last_m_length by done. lia.
    + unfold process_call, process_command. by rewrite Hon.
  - destruct (learn_keeps self) as [-> ->]. done.
  - destruct (get_suggestions_keeps self context) as [-> ->]. done.
  - done.
  - simpl. split; [done|lia].
Qed.

Lemma agent_run_bound (ops : list AgentOp) (self : AIAgentCore) :
  0 < history_bound (config self) ->
  Z.of_nat (length (command_history self)) <= history_bound (config self) ->
  config (agent_run ops self) = config self
  /\ Z.of_nat (length (command_history (agent_run ops self)))
     <= history_bound (config self).
Proof.
  revert self. induction ops as [|op ops IH]; intros self Hpos Hlen; [done|].
  destruct (agent_step_bound self op Hpos Hlen) as [Hc Hl].
  cbn [agent_run fold_left]. fold (agent_run ops (agent_step self op)).
  destruct (IH (agent_step self op)) as [Hc' Hl'];
    rewrite ?Hc; try done.
  rewrite Hc in Hc', Hl'. done.
Qed.

End AgentSession.

Lemma agent_step_config (self : AIAgentCore) (op : AgentOp) :
  config (agent_step self op) = config self.
Proof.
  destruct op as [c| |context|? ? ?|]; cbn [agent_step]; try done.
  - by destruct (process_call_keeps self c).
  - by destruct (learn_keeps self).
  - by destruct (get_suggestions_keeps self context).
Qed.

Lemma agent_run_config (ops : list AgentOp) (self : AIAgentCore) :
  config (agent_run ops self) = config self.
Proof.
  revert self. induction ops as [|op ops IH]; intros self; [done|].
  cbn [agent_run fold_left]. fold (agent_run ops (agent_step self op)).
  by rewrite IH, agent_step_config.
Qed.

(** X4. Whatever the operations of a session (commands, learning,
    suggestions, exports, clearing), an agent keeps its configuration,
    whatever that configuration is; and when the bound that the
    configuration gives, 1000 if it names none, is positive, the history
    never holds more entries than the bound. *)
Theorem agent_history_bounded (cfg : option Config) (ops : list AgentOp) :
  let fresh := AIAgentCore_init cfg in
  config (agent_run ops fresh) = config fresh
  /\ (0 < history_bound (config fresh) ->
      Z.of_nat (length (command_history (agent_run ops fresh)))
      <= history_bound (config fresh)).
Proof.
  intros fresh. split; [apply agent_run_config|].
  intros Hpos. apply agent_run_bound; [done|].
  change (Z.of_nat (length (command_history fresh))) with 0. lia.
Qed.

Lemma agent_history_bounded_witness :
  Z.of_nat (length (command_history
                      (agent_run
                         (map AProcess three_calls ++ [ALearn; ASuggest None])
                         (AIAgentCore_init (Some small_config))))) <= 2.
Proof.
  apply (proj2 (agent_history_bounded (Some small_config)
                  (map AProcess three_calls ++ [ALearn; ASuggest None]))).
  vm_compute. reflexivity.
Defined.

Section HistoryEdges.

Lemma init_config (cfg : Config) :
  learning_enabled cfg = Some true ->
  config (AIAgentCore_init (Some cfg)) = cfg.
Proof.
  intros Hl. unfold AIAgentCore_init. cbn [config].
  destruct cfg as [? ? ? ? le ?]. simpl in Hl. subst le. simpl.
  by repeat case_match.
Qed.

Lemma process_commands_no_bound (calls : list Call) (self : AIAgentCore) :
  learning_enabled (config self) = Some true ->
  max_history (config self) = Some 0 ->
  command_history (process_commands self calls)
  = command_history self ++ map history_entry_of calls.
Proof.
  revert self. induction calls as [|c calls IH]; intros self Hl Hm.
  - simpl. by rewrite app_nil_r.
  - cbn [process_commands fold_left].
    fold (process_commands (process_call self c) calls).
    destruct (process_call_keeps self c) as [Hc _].
    rewrite IH by by rewrite Hc.
    rewrite process_call_history by by rewrite Hl.
    unfold history_bound. rewrite Hm.
    change (default 1000 (Some 0)) with 0.
    rewrite length_app. cbn [length].
    destruct (Z.gtb_spec (Z.of_nat (length (command_history self) + 1)) 0);
      [|lia].
    change (py_slice_from (- 0) (command_history self ++ [history_entry_of c]))
      with (command_history self ++ [history_entry_of c]).
    by rewrite <- app_assoc.
Qed.

Lemma process_commands_negative_bound (m : Z) (calls : list Call)
    (self : AIAgentCore) :
  m < 0 ->
  learning_enabled (config self) = Some true ->
  max_history (config self) = Some m ->
  command_history self = [] ->
  command_history (process_commands self calls) = [].
Proof.
  intros Hneg. revert self.
  induction calls as [|c calls IH]; intros self Hl Hm Hh; [done|].
  cbn [process_commands fold_left].
  fold (process_commands (process_call self c) calls).
  destruct (process_call_keeps self c) as [Hc _].
  apply IH; rewrite ?Hc; try done.
  rewrite process_call_history by by rewrite Hl.
  unfold history_bound. rewrite Hm, Hh.
  change (default 1000 (Some m)) with m. cbn [app length].
  destruct (Z.gtb_spec (Z.of_nat 1) m); [|lia].
  unfold py_slice_from. destruct (Z.ltb_spec (- m) 0); [lia|].
  apply drop_ge. simpl. lia.
Qed.

End HistoryEdges.

(** X5. A [max_history] that is not positive does not bound the history as
    a positive one does.  With [max_history] 0 the slice [history[-0:]] is
    the whole list, so nothing is ever evicted and a fresh agent holds the
    entries of all its calls; with a negative [max_history] the slice drops
    entries from the front and a fresh agent never stores any entry. *)
Theorem history_bound_not_positive (cfg : Config) (m : Z)
    (calls : list Call) :
  learning_enabled cfg = Some true ->
  max_history cfg = Some m ->
  m <= 0 ->
  command_history (process_commands (AIAgentCore_init (Some cfg)) calls)
  = if decide (m = 0) then map history_entry_of calls else [].
Proof.
  intros Hl Hm Hle. pose proof (init_config cfg Hl) as Hc.
  destruct (decide (m = 0)) as [->|Hne].
  - rewrite process_commands_no_bound; rewrite ?Hc; done.
  - apply (process_commands_negative_bound m); rewrite ?Hc; try done. lia.
Qed.

Definition unbounded_config : Config :=
  {| wake_word := Some "Hey Assistant"; language := Some "en";
     processing_mode := Some "hybrid"; privacy_mode := Some false;
     learning_enabled := Some true; max_history := Some 0 |}.

Lemma history_bound_not_positive_witness :
  length (command_history
            (process_commands (AIAgentCore_init (Some unbounded_config))
               three_calls)) = 3%nat.
Proof.
  rewrite (history_bound_not_positive unbounded_config 0 three_calls
             eq_refl eq_refl ltac:(lia)).
  reflexivity.
Defined.

Section Ranking.

(** The full ranking that [learn_from_patterns] cuts at ten. *)
Definition ranking (history : list HistoryEntry) : list (string * Z) :=
  sorted_desc (command_frequency history).

Lemma ranking_facts (history : list HistoryEntry) :
  let cmds := map h_command history in
  NoDup (map fst (ranking history))
  /\ (forall c n, (c, n) ∈ ranking history
                  <-> c ∈ cmds /\ n = occurrences c cmds)
  /\ StronglySorted (ranks_before cmds) (ranking history).
Proof.
  intros cmds. unfold ranking. rewrite command_frequency_table. fold cmds.
  set (items := map (fun c => (c, occurrences c cmds))
                    (first_occurrences cmds)).
  split; [|split].
  - rewrite sorted_desc_perm. unfold items. rewrite map_map. simpl.
    rewrite map_id. apply NoDup_first_occurrences.
  - intros c n. rewrite sorted_desc_perm. unfold items.
    rewrite list_elem_of_fmap. setoid_rewrite elem_of_first_occurrences.
    split.
    + by intros (c' & [= -> ->] & Hin).
    + intros [Hin ->]. by exists c.
  - apply (sorted_desc_sorted
             (fun a b => (first_index a.1 cmds < first_index b.1 cmds)%nat)).
    unfold items.
    apply (StronglySorted_fmap _
             (fun c c' => (first_index c cmds < first_index c' cmds)%nat));
      [done|apply first_occurrences_sorted].
Qed.

Lemma learn_patterns_nonempty (self : AIAgentCore) :
  command_history self <> [] ->
  exists patterns,
    (learn_from_patterns self).2 = Some patterns
    /\ learned_patterns (learn_from_patterns self).1 = Some patterns
    /\ frequent_commands patterns = take 10 (ranking (command_history self)).
Proof.
  intros Hne. unfold learn_from_patterns, ranking.
  destruct (command_history self) eqn:E; [done|]. by eexists.
Qed.

Lemma occurrences_bounds (c : string) (cmds : list string) :
  c ∈ cmds -> 1 <= occurrences c cmds <= Z.of_nat (length cmds).
Proof.
  intros Hin. unfold occurrences. split.
  - assert (c ∈ filter (fun x => x = c) cmds) as Hf
      by by apply list_elem_of_filter.
    destruct (filter _ cmds); [by apply elem_of_nil in Hf|simpl; lia].
  - apply inj_le, length_filter.
Qed.

End Ranking.

(** X6. [get_suggestions] reads the stored patterns and learns only when
    none are stored: once patterns are stored, the commands processed
    afterwards do not change the suggestions, which stay the first five
    frequent commands of the stored patterns. *)
Theorem suggestions_stale (self : AIAgentCore) (patterns : Patterns)
    (calls : list Call) (context context' : ContextDict) :
  learned_patterns self = Some patterns ->
  (get_suggestions (process_commands self calls) context').2
  = (get_suggestions self context).2
  /\ (get_suggestions self context).2
     = map fst (take 5 (frequent_commands patterns))
  /\ learned_patterns (get_suggestions (process_commands self calls)
                         context').1 = Some patterns.
Proof.
  intros Hp. destruct (process_commands_keeps calls self) as [_ Hkeep].
  unfold get_suggestions. rewrite Hkeep, Hp. cbn [fst snd].
  by rewrite Hkeep, Hp.
Qed.

Lemma suggestions_stale_witness :
  (get_suggestions
     (process_commands (learn_from_patterns agent_after_three).1 three_calls)
     None).2
  = (get_suggestions (learn_from_patterns agent_after_three).1 None).2.
Proof.
  eapply (suggestions_stale (learn_from_patterns agent_after_three).1 _
            three_calls None None).
  vm_compute. reflexivity.
Defined.

(** X7. On an agent that stores no patterns and has a history,
    [get_suggestions] learns and returns at most five distinct commands of
    the history, most frequent first: their numbers of occurrences never
    increase along the list, and no command of the history that is left out
    occurs more often than one that is suggested.  On an empty history it
    returns nothing and stores nothing. *)
Theorem suggestions_most_frequent (self : AIAgentCore)
    (context : ContextDict) :
  learned_patterns self = None ->
  let cmds := map h_command (command_history self) in
  let out := get_suggestions self context in
  (command_history self = [] ->
   out.2 = [] /\ learned_patterns out.1 = None)
  /\ (command_history self <> [] ->
      out.2 = map fst (take 5 (ranking (command_history self)))
      /\ (length out.2 <= 5)%nat
      /\ NoDup out.2
      /\ (forall c, c ∈ out.2 -> c ∈ cmds)
      /\ StronglySorted
           (fun a b => occurrences b cmds <= occurrences a cmds) out.2
      /\ (forall c d, c ∈ out.2 -> d ∈ cmds -> d ∉ out.2 ->
                      occurrences d cmds <= occurrences c cmds)).
Proof.
  intros Hnone cmds out. unfold out, get_suggestions. rewrite Hnone.
  cbn [fst snd]. split.
  - intros Hempty. unfold learn_from_patterns. rewrite Hempty. simpl.
    by rewrite Hnone.
  - intros Hne.
    destruct (learn_patterns_nonempty self Hne) as (p & _ & -> & Hfreq).
    rewrite Hfreq, take_take. change (5 `min` 10)%nat with 5%nat.
    destruct (ranking_facts (command_history self)) as (Hnd & Hmem & Hsort).
    fold cmds in Hmem, Hsort.
    set (R := ranking (command_history self)) in *.
    assert (Hsplit : R = take 5 R ++ drop 5 R) by by rewrite take_drop.
    assert (Hin : forall c, c ∈ map fst (take 5 R) ->
                            (c, occurrences c cmds) ∈ take 5 R).
    { intros c (e & -> & He)%list_elem_of_fmap. destruct e as [c n].
      assert ((c, n) ∈ R) as HR
        by (rewrite Hsplit; apply elem_of_app; by left).
      apply Hmem in HR as [_ ->]. done. }
    split; [done|]. split; [rewrite length_map, length_take; lia|].
    split; [|split; [|split]].
    + rewrite Hsplit, map_app in Hnd. by apply NoDup_app in Hnd as [? _].
    + intros c Hc. apply Hin in Hc.
      assert ((c, occurrences c cmds) ∈ R) as HR
        by (rewrite Hsplit; apply elem_of_app; by left).
      by apply Hmem in HR as [? _].
    + rewrite Hsplit in Hsort.
      apply StronglySorted_app in Hsort as (_ & Hs & _).
      assert (Hall : Forall (fun e => e.2 = occurrences e.1 cmds) (take 5 R)).
      { apply Forall_forall. intros [c n] He.
        assert ((c, n) ∈ R) as HR
          by (rewrite Hsplit; apply elem_of_app; by left).
        by apply Hmem in HR as [_ ->]. }
      revert Hs Hall. generalize (take 5 R). intros l Hs.
      induction Hs as [|e l Hs IH Hhd]; intros Hall; [constructor|].
      apply Forall_cons in Hall as [He Hall]. cbn [map].
      constructor; [by apply IH|].
      rewrite Forall_fmap. rewrite Forall_forall in Hhd, Hall |- *.
      intros e' He'. specialize (Hhd e' He'). specialize (Hall e' He').
      simpl. rewrite <- He, <- Hall. destruct Hhd as [?|[? _]]; lia.
    + intros c d Hc Hd Hout. apply Hin in Hc.
      assert ((d, occurrences d cmds) ∈ drop 5 R) as Hdrop.
      { assert ((d, occurrences d cmds) ∈ R) as HR by by apply Hmem.
        rewrite Hsplit in HR. apply elem_of_app in HR as [HR|HR]; [|done].
        destruct Hout. apply list_elem_of_fmap.
        by exists (d, occurrences d cmds). }
      rewrite Hsplit in Hsort.
      apply StronglySorted_app in Hsort as (Hcross & _ & _).
      specialize (Hcross _ _ Hc Hdrop). unfold ranks_before in Hcross.
      simpl in Hcross. destruct Hcross as [?|[? _]]; lia.
Qed.

Lemma suggestions_most_frequent_witness :
  (get_suggestions agent_after_three None).2
  = map fst (take 5 (ranking (command_history agent_after_three))).
Proof.
  apply (suggestions_most_frequent agent_after_three None).
  - reflexivity.
  - vm_compute. discriminate.
Defined.

(** X8. [clear_data] returns true and leaves an agent that has the old
    configuration, no history and no stored patterns: its suggestions are
    empty, learning returns the empty dictionary, an export counts zero
    entries, and from then on it behaves in every session as a new agent
    made with that configuration. *)
Theorem clear_data_resets (self : AIAgentCore) :
  Config_truthy (config self) = true ->
  let cleared := (clear_data self).1 in
  (clear_data self).2 = true
  /\ cleared = AIAgentCore_init (Some (config self))
  /\ (forall ops,
         agent_run ops cleared
         = agent_run ops (AIAgentCore_init (Some (config self))))
  /\ (forall context, (get_suggestions cleared context).2 = [])
  /\ (learn_from_patterns cleared).2 = None
  /\ (forall path now,
         x_history_count <$> (export_data cleared path true now).2 = Some 0)
  /\ (clear_data cleared).1 = cleared.
Proof.
  intros Htruthy cleared.
  assert (Hc : cleared = AIAgentCore_init (Some (config self))).
  { unfold cleared, clear_data, AIAgentCore_init. cbn [fst].
    by rewrite Htruthy. }
  split; [done|]. split; [done|]. split; [by rewrite Hc|].
  repeat split.
Qed.

Lemma clear_data_resets_witness :
  (clear_data agent_after_three).1
  = AIAgentCore_init (Some (config agent_after_three)).
Proof.
  apply (clear_data_resets agent_after_three). reflexivity.
Defined.

Section Counts.

(** The sum of [f] over the keys. *)
Definition sum_over (f : string -> Z) (keys : list string) : Z :=
  foldr (fun k acc => f k + acc) 0 keys.

(** The sum of the counts of a frequency list. *)
Definition total_count (items : list (string * Z)) : Z :=
  foldr (fun e acc => e.2 + acc) 0 items.

Lemma sum_over_add (f g : string -> Z) (keys : list string) :
  sum_over (fun k => f k + g k) keys = sum_over f keys + sum_over g keys.
Proof. induction keys as [|k keys IH]; simpl; lia. Qed.

Lemma sum_over_ext (f g : string -> Z) (keys : list string) :
  (forall k, k ∈ keys -> f k = g k) -> sum_over f keys = sum_over g keys.
Proof.
  induction keys as [|k keys IH]; intros H; [done|]. simpl.
  rewrite (H k) by apply list_elem_of_here.
  rewrite IH; [done|]. intros k' Hk'. by apply H, list_elem_of_further.
Qed.

Lemma sum_over_indicator (x : string) (keys : list string) :
  NoDup keys ->
  sum_over (fun k => if decide (x = k) then 1 else 0) keys
  = if decide (x ∈ keys) then 1 else 0.
Proof.
  induction keys as [|k keys IH]; intros Hnd.
  - destruct (decide (x ∈ [])) as [H|]; [by apply elem_of_nil in H|done].
  - apply NoDup_cons in Hnd as [Hk Hnd]. cbn [sum_over foldr].
    fold (sum_over (fun k => if decide (x = k) then 1 else 0) keys).
    rewrite (IH Hnd).
    destruct (decide (x = k)) as [->|Hne].
    + rewrite (decide_False (P := k ∈ keys)) by done.
      by rewrite decide_True by apply list_elem_of_here.
    + destruct (decide (x ∈ keys)) as [Hin|Hout].
      * by rewrite decide_True by by apply list_elem_of_further.
      * rewrite decide_False; [done|].
        intros [?|?]%elem_of_cons; congruence.
Qed.

Lemma occurrences_cons (c x : string) (cmds : list string) :
  occurrences c (x :: cmds)
  = (if decide (x = c) then 1 else 0) + occurrences c cmds.
Proof.
  unfold occurrences. rewrite filter_cons.
  destruct (decide (x = c)); simpl; lia.
Qed.

Lemma sum_over_occurrences (cmds keys : list string) :
  NoDup keys ->
  (forall c, c ∈ cmds -> c ∈ keys) ->
  sum_over (fun k => occurrences k cmds) keys = Z.of_nat (length cmds).
Proof.
  intros Hnd. induction cmds as [|x cmds IH]; intros Hin.
  - clear. induction keys as [|k keys IH]; [done|]. simpl. by rewrite IH.
  - rewrite (sum_over_ext _ (fun k => (if decide (x = k) then 1 else 0)
                                      + occurrences k cmds))
      by (intros; apply occurrences_cons).
    rewrite sum_over_add, sum_over_indicator by done.
    rewrite decide_True by apply Hin, list_elem_of_here.
    rewrite IH by (intros; by apply Hin, list_elem_of_further).
    simpl length. lia.
Qed.

Lemma total_count_perm (l k : list (string * Z)) :
  l ≡ₚ k -> total_count l = total_count k.
Proof. induction 1; simpl; lia. Qed.

Lemma total_count_table (f : string -> Z) (keys : list string) :
  total_count (map (fun c => (c, f c)) keys) = sum_over f keys.
Proof. induction keys as [|k keys IH]; simpl; [done|]. by rewrite IH. Qed.

Lemma total_count_take (n : nat) (l : list (string * Z)) :
  Forall (fun e => 0 <= e.2) l -> total_count (take n l) <= total_count l.
Proof.
  intros Hall. revert n. induction Hall as [|e l He Hall IH]; intros [|n];
    simpl; try lia.
  - clear IH. induction Hall; simpl; lia.
  - specialize (IH n). lia.
Qed.

End Counts.

(** X9. The counts that [learn_from_patterns] computes account for the
    whole history: over all distinct commands they add up to the number of
    history entries.  The frequent commands it returns are at most ten
    distinct commands, each with a count of at least one, and their counts
    add up to at most the number of entries, to exactly that number when the
    history has at most ten distinct commands. *)
Theorem learned_counts_account (self : AIAgentCore) :
  command_history self <> [] ->
  let n := Z.of_nat (length (command_history self)) in
  exists patterns,
    (learn_from_patterns self).2 = Some patterns
    /\ total_count (ranking (command_history self)) = n
    /\ (length (frequent_commands patterns) <= 10)%nat
    /\ NoDup (map fst (frequent_commands patterns))
    /\ Forall (fun e => 1 <= e.2 <= n) (frequent_commands patterns)
    /\ total_count (frequent_commands patterns) <= n
    /\ ((length (ranking (command_history self)) <= 10)%nat ->
        total_count (frequent_commands patterns) = n).
Proof.
  intros Hne n.
  destruct (learn_patterns_nonempty self Hne) as (p & Hret & _ & Hfreq).
  exists p. split; [done|]. rewrite Hfreq.
  destruct (ranking_facts (command_history self)) as (Hnd & Hmem & _).
  set (cmds := map h_command (command_history self)) in *.
  set (R := ranking (command_history self)) in *.
  assert (Htotal : total_count R = n).
  { unfold R, ranking. rewrite (total_count_perm _ _ (sorted_desc_perm _)).
    rewrite command_frequency_table, total_count_table.
    fold cmds. rewrite sum_over_occurrences.
    - unfold cmds, n. by rewrite length_map.
    - apply NoDup_first_occurrences.
    - intros c Hc. by apply elem_of_first_occurrences. }
  assert (Hall : Forall (fun e => 1 <= e.2 <= n) R).
  { apply Forall_forall. intros [c k] He. apply Hmem in He as [Hc ->].
    simpl. unfold n. rewrite <- (length_map h_command). fold cmds.
    by apply occurrences_bounds. }
  assert (Hsplit : R = take 10 R ++ drop 10 R) by by rewrite take_drop.
  split; [done|]. split; [rewrite length_take; lia|].
  split; [|split; [|split]].
  - rewrite Hsplit, map_app in Hnd. by apply NoDup_app in Hnd as [? _].
  - by apply Forall_take.
  - rewrite <- Htotal. apply total_count_take.
    eapply Forall_impl; [exact Hall|]. simpl. lia.
  - intros Hlen. by rewrite take_ge.
Qed.

Lemma learned_counts_account_witness :
  exists patterns,
    (learn_from_patterns agent_after_three).2 = Some patterns
    /\ total_count (ranking (command_history agent_after_three)) = 3.
Proof.
  destruct (learned_counts_account agent_after_three) as (p & H1 & H2 & _).
  - vm_compute. discriminate.
  - exists p. split; [exact H1|exact H2].
Defined.

(** * Further properties of the app launcher *)

Section FindApp.

Lemma catalogue_get_Some (apps : Catalogue) (key : string) (app : AppInfo) :
  catalogue_get apps key = Some app -> (key, app) ∈ apps.
Proof.
  induction apps as [|[k a] apps IH]; [done|]. simpl.
  destruct (String.eqb_spec k key) as [->|Hne].
  - intros [= ->]. apply list_elem_of_here.
  - intros H. by apply list_elem_of_further, IH.
Qed.

Lemma find_by_display_name_Some (apps : Catalogue) (id : string)
    (app : AppInfo) :
  find_by_display_name apps id = Some app ->
  exists k, (k, app) ∈ apps /\ lower (name app) = id.
Proof.
  induction apps as [|[k a] apps IH]; [done|]. simpl.
  destruct (String.eqb_spec (lower (name a)) id) as [Heq|Hne].
  - intros [= <-]. exists k. split; [apply list_elem_of_here|done].
  - intros (k' & Hin & Hn)%IH. exists k'.
    split; [by apply list_elem_of_further|done].
Qed.

Lemma find_partial_Some (apps : Catalogue) (id : string) (app : AppInfo) :
  find_partial apps id = Some app ->
  exists k, (k, app) ∈ apps
            /\ (is_substring id k \/ is_substring id (lower (name app))).
Proof.
  induction apps as [|[k a] apps IH]; [done|]. simpl.
  destruct (contains id (lower (name a)) || contains id k) eqn:E.
  - intros [= <-]. exists k. split; [apply list_elem_of_here|].
    apply orb_true_iff in E. rewrite !contains_spec in E. tauto.
  - intros (k' & Hin & Hs)%IH. exists k'.
    split; [by apply list_elem_of_further|done].
Qed.

Lemma find_partial_None (apps : Catalogue) (id : string) :
  find_partial apps id = None
  <-> forall e, e ∈ apps ->
                ~ is_substring id e.1
                /\ ~ is_substring id (lower (name e.2)).
Proof.
  induction apps as [|[k a] apps IH]; simpl.
  - split; [by intros _ e ?%elem_of_nil|done].
  - destruct (contains id (lower (name a)) || contains id k) eqn:E.
    + split; [done|]. intros H.
      destruct (H (k, a) (list_elem_of_here _ _)) as [H1 H2]. simpl in *.
      apply orb_true_iff in E. rewrite !contains_spec in E. tauto.
    + rewrite IH. apply orb_false_iff in E as [E1 E2]. split.
      * intros H e [->|He]%elem_of_cons; [|by apply H]. simpl.
        rewrite <- !contains_spec. split; congruence.
      * intros H e He. by apply H, list_elem_of_further.
Qed.

Lemma _find_app_Some (apps : Catalogue) (id : string) (app : AppInfo) :
  _find_app apps id = Some app ->
  exists k, (k, app) ∈ apps
            /\ (is_substring id k \/ is_substring id (lower (name app))).
Proof.
  unfold _find_app.
  destruct (catalogue_get apps id) as [a|] eqn:E1.
  { intros [= <-]. exists id. split; [by apply catalogue_get_Some|].
    left. apply is_substring_refl. }
  destruct (find_by_display_name apps id) as [a|] eqn:E2.
  { intros [= <-]. apply find_by_display_name_Some in E2 as (k & Hin & Hn).
    exists k. split; [done|]. right. rewrite Hn. apply is_substring_refl. }
  apply find_partial_Some.
Qed.

Lemma _find_app_None (apps : Catalogue) (id : string) :
  _find_app apps id = None
  <-> forall e, e ∈ apps ->
                ~ is_substring id e.1
                /\ ~ is_substring id (lower (name e.2)).
Proof.
  rewrite <- find_partial_None. split.
  - unfold _find_app. by repeat case_match.
  - intros Hnone. destruct (_find_app apps id) as [app|] eqn:E; [|done].
    apply _find_app_Some in E as (k & Hin & Hs).
    rewrite find_partial_None in Hnone. destruct (Hnone _ Hin). tauto.
Qed.

End FindApp.

(** X10. [_find_app] answers with an entry of the catalogue, and one whose
    key or lower-cased display name has the identifier as a substring; it
    answers nothing exactly when no entry of the catalogue has.  The first
    two resolution steps only choose which entry is returned: whether
    something is found is decided by the substring test alone. *)
Theorem find_app_found_iff_substring (apps : Catalogue) (id : string) :
  (forall app, _find_app apps id = Some app ->
               exists k, (k, app) ∈ apps
                         /\ (is_substring id k
                             \/ is_substring id (lower (name app))))
  /\ (_find_app apps id = None
      <-> forall e, e ∈ apps ->
                    ~ is_substring id e.1
                    /\ ~ is_substring id (lower (name e.2)))
  /\ (is_Some (_find_app apps id) <-> is_Some (find_partial apps id)).
Proof.
  split; [apply _find_app_Some|]. split; [apply _find_app_None|].
  rewrite <- !not_eq_None_Some, _find_app_None, find_partial_None. done.
Qed.

Section Similarity.

Lemma char_set_nonempty (s : string) : s <> "" -> size (char_set s) <> 0%nat.
Proof.
  destruct s as [|c s]; [done|]. intros _. unfold char_set. cbn.
  apply size_non_empty_iff. intros Hempty.
  assert (lower_char c ∈ ({[lower_char c]}
            ∪ list_to_set (list_ascii_of_string (lower s)) : gset ascii))
    as Hin by set_solver.
  rewrite Hempty in Hin. by apply not_elem_of_empty in Hin.
Qed.

Lemma char_set_lower (s : string) : char_set (lower s) = char_set s.
Proof. unfold char_set. by rewrite lower_idemp. Qed.

End Similarity.

(** X11. [_calculate_similarity] is symmetric and does not see case; its
    value lies between 0 and 1; a non-empty string has similarity 1 with
    itself, and two empty strings have similarity 0. *)
Theorem similarity_properties (str1 str2 : string) :
  _calculate_similarity str1 str2 = _calculate_similarity str2 str1
  /\ _calculate_similarity (lower str1) str2
     = _calculate_similarity str1 str2
  /\ (0 <= _calculate_similarity str1 str2)%Q
  /\ (_calculate_similarity str1 str2 <= 1)%Q
  /\ (str1 <> "" -> (_calculate_similarity str1 str1 == 1)%Q)
  /\ _calculate_similarity "" "" = 0%Q.
Proof.
  split; [|split; [|split; [|split; [|split]]]].
  - unfold _calculate_similarity. cbv zeta.
    assert (char_set str1 ∩ char_set str2 = char_set str2 ∩ char_set str1)
      as -> by apply intersection_comm_L.
    assert (char_set str1 ∪ char_set str2 = char_set str2 ∪ char_set str1)
      as -> by apply union_comm_L.
    done.
  - unfold _calculate_similarity. cbv zeta. by rewrite char_set_lower.
  - unfold _calculate_similarity. cbv zeta. case_match; [|done].
    unfold Qle. simpl. lia.
  - unfold _calculate_similarity. cbv zeta.
    pose proof (subseteq_size (char_set str1 ∩ char_set str2)
                  (char_set str1 ∪ char_set str2)) as Hsize.
    destruct (Nat.ltb_spec 0 (size (char_set str1 ∪ char_set str2)))
      as [Hpos|_]; [|done].
    unfold Qle. simpl. rewrite Z.mul_1_r, Z.mul_1_l.
    rewrite <- positive_nat_Z, Nat2Pos.id by lia.
    apply inj_le, Hsize.
    etrans; [apply intersection_subseteq_l|apply union_subseteq_l].
  - intros Hne. unfold _calculate_similarity. cbv zeta.
    assert (char_set str1 ∩ char_set str1 = char_set str1)
      as -> by apply intersection_idemp_L.
    assert (char_set str1 ∪ char_set str1 = char_set str1)
      as -> by apply union_idemp_L.
    pose proof (char_set_nonempty str1 Hne) as Hpos.
    destruct (Nat.ltb_spec 0 (size (char_set str1))) as [_|?]; [|lia].
    unfold Qeq. simpl. rewrite Z.mul_1_r, Z.mul_1_l.
    rewrite <- positive_nat_Z, Nat2Pos.id by done. done.
  - reflexivity.
Qed.

Lemma similarity_properties_witness :
  (_calculate_similarity "Maps" "Maps" == 1)%Q.
Proof.
  apply (proj1 (proj2 (proj2 (proj2 (proj2
           (similarity_properties "Maps" "Maps")))))).
  discriminate.
Defined.

Section Normalization.

Lemma rstrip_idemp (s : string) : rstrip (rstrip s) = rstrip s.
Proof.
  induction s as [|c s IH]; [done|]. simpl.
  destruct (rstrip s) as [|d r] eqn:E.
  - destruct (is_space c) eqn:Ec; [done|]. simpl. by rewrite Ec.
  - change (rstrip (String c (String d r)))
      with (match rstrip (String d r) with
            | EmptyString =>
                if is_space c then EmptyString else String c EmptyString
            | r2 => String c r2
            end).
    by rewrite IH.
Qed.

Lemma strip_idemp (s : string) : strip (strip s) = strip s.
Proof.
  unfold strip.
  rewrite (clean_lstrip (rstrip (lstrip s)))
    by apply rstrip_clean, lstrip_clean.
  apply rstrip_idemp.
Qed.

Lemma normalize_idemp (id : string) :
  strip (lower (strip (lower id))) = strip (lower id).
Proof. by rewrite normalized_lower, strip_idemp. Qed.

End Normalization.

Section RecentList.

Lemma filter_ne_absent (x : string) (l : list string) :
  x ∉ l -> filter (fun k => k <> x) l = l.
Proof.
  induction l as [|y l IH]; intros Hout; [done|].
  apply not_elem_of_cons in Hout as [Hne Hout].
  rewrite filter_cons, decide_True by done. by rewrite IH.
Qed.

Lemma list_remove_first_filter (x : string) (l : list string) :
  NoDup l -> list_remove_first x l = filter (fun k => k <> x) l.
Proof.
  induction l as [|y l IH]; intros Hnd; [done|].
  apply NoDup_cons in Hnd as [Hy Hnd]. simpl. rewrite filter_cons.
  destruct (String.eqb_spec y x) as [->|Hne].
  - rewrite decide_False by (intros H; by apply H).
    by rewrite filter_ne_absent.
  - rewrite decide_True by done. by rewrite IH.
Qed.

Lemma _add_to_recent_filter (recent : list string) (key : string) :
  NoDup recent ->
  _add_to_recent recent key
  = take 20 (key :: filter (fun k => k <> key) recent).
Proof.
  intros Hnd. unfold _add_to_recent. destruct (mem key recent) eqn:Hmem.
  - by rewrite list_remove_first_filter.
  - rewrite filter_ne_absent; [done|]. rewrite <- mem_spec. congruence.
Qed.

Lemma filter_ne_length (key : string) (l : list string) :
  NoDup l -> key ∈ l ->
  S (length (filter (fun k => k <> key) l)) = length l.
Proof.
  induction l as [|y l IH]; intros Hnd Hin; [by apply elem_of_nil in Hin|].
  apply NoDup_cons in Hnd as [Hy Hnd]. rewrite filter_cons.
  destruct (decide (y = key)) as [->|Hne].
  - rewrite decide_False by (intros H; by apply H).
    by rewrite filter_ne_absent.
  - rewrite decide_True by done. simpl. f_equal. apply IH; [done|].
    apply elem_of_cons in Hin as [->|]; done.
Qed.

End RecentList.

Lemma launch_recent_list (self : AppLauncher) (id : string)
    (parameters : option Params) (t_stats t_result : string) :
  NoDup (recent_apps self) ->
  is_Some (_find_app (installed_apps self) (strip (lower id))) ->
  recent_apps (launch self id parameters t_stats t_result).1
  = take 20 (strip (lower id)
             :: filter (fun k => k <> strip (lower id)) (recent_apps self)).
Proof.
  intros Hnd [app Hfind]. unfold launch. rewrite Hfind.
  cbn [fst recent_apps]. by apply _add_to_recent_filter.
Qed.

(** X12. In a launcher whose recent list has no duplicate, a successful
    launch puts the normalized identifier at the front of the recent list,
    keeps the other entries in their order, and cuts the list at 20; the
    list keeps its length when the identifier was already in it, and
    otherwise grows by one up to 20, the oldest entry going. *)
Theorem launch_recent_order (self : AppLauncher) (id : string)
    (parameters : option Params) (t_stats t_result : string) :
  let key := strip (lower id) in
  let after := (launch self id parameters t_stats t_result).1 in
  NoDup (recent_apps self) ->
  is_Some (_find_app (installed_apps self) key) ->
  recent_apps after
  = take 20 (key :: filter (fun k => k <> key) (recent_apps self))
  /\ head (recent_apps after) = Some key
  /\ NoDup (recent_apps after)
  /\ tail (recent_apps after) `sublist_of` recent_apps self
  /\ length (recent_apps after)
     = (if decide (key ∈ recent_apps self)
        then length (recent_apps self) `min` 20
        else S (length (recent_apps self)) `min` 20)%nat.
Proof.
  intros key after Hnd Hfind.
  pose proof (launch_recent_list self id parameters t_stats t_result
                Hnd Hfind) as Hrec.
  fold key after in Hrec. rewrite Hrec. split; [done|]. split; [done|]. split; [|split].
  - eapply sublist_NoDup; [|apply sublist_take].
    apply NoDup_cons. split.
    + intros [H _]%list_elem_of_filter. by apply H.
    + by apply NoDup_filter.
  - cbn [take tail]. etrans; [apply sublist_take|apply sublist_filter].
  - rewrite length_take. cbn [length].
    destruct (decide (key ∈ recent_apps self)) as [Hin|Hout].
    + rewrite filter_ne_length by done. lia.
    + rewrite filter_ne_absent by done. lia.
Qed.

Lemma launch_recent_order_witness :
  head (recent_apps (launch AppLauncher_init "Camera" None "t0" "t1").1)
  = Some "camera".
Proof.
  apply (launch_recent_order AppLauncher_init "Camera" None "t0" "t1").
  - apply NoDup_nil_2.
  - vm_compute. by eexists.
Defined.

(** ** Sessions of the launcher: statistics and recent entries *)

(** What holds of the statistics and of the recent list throughout a
    session: every record has been launched at least once, has a time of
    last use and no tracked time; every key of the statistics and every
    recent entry is a normalized identifier that resolves in the catalogue;
    every recent entry has statistics. *)
Record usage_inv (self : AppLauncher) : Prop := {
  ui_catalogue : installed_apps self = _initialize_app_database;
  ui_recent_nodup : NoDup (recent_apps self);
  ui_recent_length : (length (recent_apps self) <= 20)%nat;
  ui_stats :
    forall k st, app_usage_stats self !! k = Some st ->
                 1 <= launch_count st /\ is_Some (last_used st)
                 /\ total_time st = 0
                 /\ strip (lower k) = k
                 /\ is_Some (_find_app _initialize_app_database k);
  ui_recent_stats :
    forall k, k ∈ recent_apps self -> is_Some (app_usage_stats self !! k)
}.

Section UsageSession.

Lemma update_lookup (stats : gmap string UsageStats) (key now k : string) :
  _update_usage_stats stats key now !! k
  = if decide (k = key)
    then Some {| launch_count := count_of stats key + 1;
                 last_used := Some now;
                 total_time := from_option total_time 0 (stats !! key) |}
    else stats !! k.
Proof.
  unfold _update_usage_stats, count_of.
  destruct (stats !! key) as [st|] eqn:Hkey.
  - rewrite Hkey. destruct (decide (k = key)) as [->|Hne].
    + by rewrite lookup_insert_eq.
    + by rewrite lookup_insert_ne.
  - rewrite lookup_insert_eq. destruct (decide (k = key)) as [->|Hne].
    + by rewrite lookup_insert_eq.
    + by rewrite !lookup_insert_ne.
Qed.

Lemma recent_elem_after_add (recent : list string) (key k : string) :
  k ∈ _add_to_recent recent key -> k = key \/ k ∈ recent.
Proof.
  unfold _add_to_recent. intros Hk.
  pose proof (elem_of_sublist _ _ _ Hk (sublist_take _ _)) as Hk'.
  apply elem_of_cons in Hk' as [->|Hk']; [by left|]. right.
  destruct (mem key recent); [|done].
  eapply elem_of_sublist; [exact Hk'|apply list_remove_first_sublist].
Qed.

Lemma launch_usage_inv (self : AppLauncher) (id : string)
    (parameters : option Params) (t_stats t_result : string) :
  usage_inv self ->
  usage_inv (launch self id parameters t_stats t_result).1.
Proof.
  intros [Hc Hnd Hlen Hstats Hrs]. unfold launch.
  destruct (_find_app _ _) as [app|] eqn:Hfind; [|by constructor].
  set (key := strip (lower id)) in *.
  destruct (_add_to_recent_inv (recent_apps self) key Hnd)
    as (Hnd' & Hlen' & _).
  constructor; cbn [fst installed_apps app_usage_stats recent_apps];
    try done.
  - intros k st. rewrite update_lookup.
    destruct (decide (k = key)) as [->|Hne]; [|apply Hstats].
    intros [= <-]. cbn. unfold count_of.
    destruct (app_usage_stats self !! key) as [st|] eqn:Hst.
    + destruct (Hstats key st Hst) as (H1 & _ & H3 & H4 & H5).
      simpl. repeat split; try done; try lia.
    + simpl. repeat split; try done.
      * apply normalize_idemp.
      * rewrite <- Hc. by eexists.
  - intros k [->|Hk]%recent_elem_after_add; rewrite update_lookup.
    + rewrite decide_True by done. by eexists.
    + destruct (decide (k = key)); [by eexists|]. by apply Hrs.
Qed.

Lemma step_usage_inv (self : AppLauncher) (op : Op) :
  usage_inv self -> usage_inv (step self op).
Proof.
  intros Hinv. destruct op; simpl; try done.
  - by apply launch_usage_inv.
  - unfold add_to_favorites. case_match; [|done].
    destruct Hinv. by constructor.
  - destruct (switch_to_recent_cases self index t_stats t_result)
      as [[exc ->]|[->|(key & _ & ->)]]; try done.
    by apply launch_usage_inv.
Qed.

Lemma run_usage_inv (ops : list Op) (self : AppLauncher) :
  usage_inv self -> usage_inv (run ops self).
Proof.
  revert self. induction ops as [|op ops IH]; intros self Hinv; [done|].
  apply IH. by apply step_usage_inv.
Qed.

Lemma init_usage_inv : usage_inv AppLauncher_init.
Proof.
  constructor; simpl; try done; try lia; try apply NoDup_nil_2.
  by intros k ?%elem_of_nil.
Qed.

End UsageSession.

(** X13. After any session on a fresh launcher, every statistics record
    has a launch count of at least one and a time of last use, and its total
    time is still 0, no operation ever tracking it; every key of the
    statistics is a normalized identifier that resolves in the catalogue;
    and every entry of the recent list has a statistics record. *)
Theorem session_statistics (ops : list Op) :
  let s := run ops AppLauncher_init in
  (forall k st, app_usage_stats s !! k = Some st ->
                1 <= launch_count st /\ is_Some (last_used st)
                /\ total_time st = 0
                /\ strip (lower k) = k
                /\ is_Some (_find_app (installed_apps s) k))
  /\ (forall k, k ∈ recent_apps s ->
                is_Some (app_usage_stats s !! k)
                /\ 1 <= count_of (app_usage_stats s) k).
Proof.
  intros s.
  destruct (run_usage_inv ops AppLauncher_init init_usage_inv)
    as [Hc _ _ Hstats Hrs].
  fold s in Hc, Hstats, Hrs. split.
  - intros k st Hst. rewrite Hc. by apply Hstats.
  - intros k Hk. destruct (Hrs k Hk) as [st Hst]. split; [by eexists|].
    unfold count_of. rewrite Hst. simpl. by destruct (Hstats k st Hst).
Qed.

(** X14. [switch_to_recent] in a session on a fresh launcher, the recent
    list having [n] entries.  An index of [n] or more returns the
    invalid-index failure and changes nothing.  An index below [-n] raises
    [IndexError].  Any other index, a negative one counting from the end,
    relaunches the entry at that place, and the relaunch always succeeds:
    the entry goes to the front of the recent list, whose length stays, and
    its launch count goes up by one. *)
Theorem switch_to_recent_session (ops : list Op) (index : Z)
    (t_stats t_result : string) :
  let s := run ops AppLauncher_init in
  let n := Z.of_nat (length (recent_apps s)) in
  (n <= index ->
   switch_to_recent s index t_stats t_result
   = Returned (s, invalid_index))
  /\ (index < - n ->
      switch_to_recent s index t_stats t_result = Raised "IndexError")
  /\ (- n <= index < n ->
      exists key after result,
        recent_apps s !! Z.to_nat (if index <? 0 then index + n else index)
        = Some key
        /\ switch_to_recent s index t_stats t_result
           = Returned (after, result)
        /\ (after, result) = launch s key None t_stats t_result
        /\ l_success result = true
        /\ head (recent_apps after) = Some key
        /\ length (recent_apps after) = length (recent_apps s)
        /\ count_of (app_usage_stats after) key
           = count_of (app_usage_stats s) key + 1).
Proof.
  intros s n.
  destruct (run_usage_inv ops AppLauncher_init init_usage_inv)
    as [Hc Hnd Hlen Hstats Hrs].
  fold s in Hc, Hnd, Hlen, Hstats, Hrs.
  unfold switch_to_recent. fold n. split; [|split].
  - intros Hge. destruct (Z.geb_spec index n); [done|lia].
  - intros Hlt. destruct (Z.geb_spec index n); [lia|].
    destruct (Z.ltb_spec index 0); [|lia].
    destruct (Z.ltb_spec (index + n) 0); [done|lia].
  - intros [Hlo Hhi]. destruct (Z.geb_spec index n); [lia|].
    set (i := if index <? 0 then index + n else index).
    assert (0 <= i < n) as Hi
      by (unfold i; destruct (Z.ltb_spec index 0); lia).
    destruct (Z.ltb_spec i 0); [lia|].
    destruct (lookup_lt_is_Some_2 (recent_apps s) (Z.to_nat i)) as [key Hkey];
      [unfold n in Hi; lia|].
    rewrite Hkey.
    pose proof (list_elem_of_lookup_2 _ _ _ Hkey) as Hin.
    destruct (Hrs key Hin) as [st Hst].
    destruct (Hstats key st Hst) as (_ & _ & _ & Hnorm & Hfind).
    assert (Hfind' : is_Some (_find_app (installed_apps s)
                                (strip (lower key))))
      by by rewrite Hc, Hnorm.
    destruct (launch s key None t_stats t_result) as [after result] eqn:El.
    exists key, after, result. split; [done|]. split; [done|].
    split; [done|].
    pose proof (launch_result s key None t_stats t_result) as Hres.
    pose proof (launch_recent_list s key None t_stats t_result Hnd Hfind')
      as Hrec.
    pose proof (launch_records s key None t_stats t_result Hfind')
      as (_ & Hcount & _).
    rewrite El in Hres, Hrec, Hcount. cbn [fst snd] in *.
    rewrite Hnorm in Hrec, Hcount.
    destruct Hfind' as [app Happ]. rewrite Happ in Hres.
    split; [by destruct Hres|]. split; [by rewrite Hrec|]. split; [|done].
    rewrite Hrec, length_take. cbn [length].
    rewrite filter_ne_length by done. lia.
Qed.

Lemma switch_to_recent_session_witness :
  switch_to_recent
    (run [OpLaunch "camera" None "t0" "t1"; OpLaunch "maps" None "t2" "t3"]
       AppLauncher_init) (-3) "t4" "t5"
  = Raised "IndexError".
Proof.
  apply (switch_to_recent_session
           [OpLaunch "camera" None "t0" "t1"; OpLaunch "maps" None "t2" "t3"]
           (-3) "t4" "t5").
  vm_compute. reflexivity.
Defined.

(** X15. Right after a successful launch, [switch_to_recent] with index 0
    relaunches the same identifier: it succeeds with the same app, the
    launch count of the normalized identifier has gone up by two in all, and
    the identifier is still at the front of the recent list. *)
Theorem switch_to_recent_relaunches (self : AppLauncher) (id : string)
    (parameters : option Params) (t1 t2 t3 t4 : string) :
  let key := strip (lower id) in
  let first := launch self id parameters t1 t2 in
  is_Some (_find_app (installed_apps self) key) ->
  exists after result,
    switch_to_recent first.1 0 t3 t4 = Returned (after, result)
    /\ (after, result) = launch first.1 key None t3 t4
    /\ l_success result = true
    /\ l_app_name result = l_app_name first.2
    /\ l_package result = l_package first.2
    /\ count_of (app_usage_stats after) key
       = count_of (app_usage_stats self) key + 2
    /\ head (recent_apps after) = Some key.
Proof.
  intros key first [app Hfind].
  assert (Hfirst : first
                   = ({| installed_apps := installed_apps self;
                         app_usage_stats :=
                           _update_usage_stats (app_usage_stats self) key t1;
                         recent_apps := _add_to_recent (recent_apps self) key;
                         favorites := favorites self |}, first.2)).
  { unfold first, launch. fold key. by rewrite Hfind. }
  assert (Hres1 : l_app_name first.2 = Some (name app)
                  /\ l_package first.2 = Some (package app)).
  { pose proof (launch_result self id parameters t1 t2) as H.
    cbv zeta in H. fold key in H. rewrite Hfind in H. fold first in H.
    tauto. }
  destruct Hres1 as [Hn1 Hp1]. rewrite Hn1, Hp1.
  set (s1 := first.1).
  assert (Hs1 : s1 = {| installed_apps := installed_apps self;
                        app_usage_stats :=
                          _update_usage_stats (app_usage_stats self) key t1;
                        recent_apps := _add_to_recent (recent_apps self) key;
                        favorites := favorites self |})
    by (unfold s1; by rewrite Hfirst).
  assert (Hhead : recent_apps s1 !! 0%nat = Some key)
    by by rewrite Hs1.
  assert (Hfind1 : _find_app (installed_apps s1) (strip (lower key))
                   = Some app).
  { rewrite Hs1. cbn [installed_apps]. unfold key at 1.
    by rewrite normalize_idemp. }
  destruct (launch s1 key None t3 t4) as [after result] eqn:El.
  exists after, result.
  assert (Hswitch : switch_to_recent s1 0 t3 t4 = Returned (after, result)).
  { unfold switch_to_recent.
    destruct (recent_apps s1) as [|k0 rest] eqn:Erec; [done|].
    simpl in Hhead. injection Hhead as ->.
    destruct (Z.geb_spec 0 (Z.of_nat (length (key :: rest))));
      [simpl in *; lia|].
    change (0 <? 0) with false. cbv iota.
    change (Z.to_nat 0) with 0%nat. cbn [lookup list_lookup].
    by rewrite El. }
  split; [done|]. split; [done|].
  pose proof (launch_result s1 key None t3 t4) as Hres.
  rewrite El, Hfind1 in Hres. cbn [snd] in Hres.
  destruct Hres as (Hsucc & _ & Hname & Hpack & _).
  split; [done|]. split; [done|]. split; [done|].
  pose proof (launch_records s1 key None t3 t4) as Hrec.
  cbv zeta in Hrec. rewrite El in Hrec. cbn [fst] in Hrec.
  destruct Hrec as (_ & Hcount & _ & _ & Hrecent); [by rewrite Hfind1|].
  unfold key at 1 2 in Hcount. rewrite normalize_idemp in Hcount.
  fold key in Hcount. split.
  - rewrite Hcount, Hs1. cbn [app_usage_stats].
    rewrite count_of_update, decide_True by done. lia.
  - rewrite Hrecent. unfold key at 1. by rewrite normalize_idemp.
Qed.

Lemma switch_to_recent_relaunches_witness :
  exists after result,
    switch_to_recent (launch AppLauncher_init "Maps" None "t0" "t1").1 0
      "t2" "t3" = Returned (after, result)
    /\ l_success result = true.
Proof.
  destruct (switch_to_recent_relaunches AppLauncher_init "Maps" None
              "t0" "t1" "t2" "t3") as (after & result & H1 & _ & H2 & _).
  - vm_compute. by eexists.
  - exists after, result. split; [exact H1|exact H2].
Defined.

(** ** What the projections show *)

Section Projections.

Lemma summaries_app (apps : Catalogue) (l1 l2 : list string) :
  summaries apps (l1 ++ l2) = summaries apps l1 ++ summaries apps l2.
Proof.
  induction l1 as [|k l1 IH]; [done|]. simpl.
  destruct (catalogue_get apps k); by rewrite IH.
Qed.

Lemma summaries_elem (apps : Catalogue) (keys : list string)
    (s : AppSummary) :
  s ∈ summaries apps keys
  <-> exists app, s_key s ∈ keys
                  /\ catalogue_get apps (s_key s) = Some app
                  /\ s = {| s_key := s_key s; s_name := name app;
                            s_category := AppCategory_value (category app) |}.
Proof.
  induction keys as [|k keys IH]; simpl.
  - rewrite elem_of_nil. split; [done|].
    by intros (? & ?%elem_of_nil & _).
  - destruct (catalogue_get apps k) as [app|] eqn:Hk.
    + rewrite elem_of_cons, IH. split.
      * intros [->|(a & Hin & Hget & Hs)].
        -- exists app. simpl. split; [apply list_elem_of_here|done].
        -- exists a. split; [by apply list_elem_of_further|done].
      * intros (a & [Heq|Hin]%elem_of_cons & Hget & Hs).
        -- left. rewrite Heq, Hk in Hget. injection Hget as <-.
           by rewrite Hs, Heq.
        -- right. by exists a.
    + rewrite IH. split.
      * intros (a & Hin & Hget & Hs). exists a.
        split; [by apply list_elem_of_further|done].
      * intros (a & [Heq|Hin]%elem_of_cons & Hget & Hs).
        -- rewrite Heq, Hk in Hget. done.
        -- by exists a.
Qed.

Lemma summaries_length (apps : Catalogue) (keys : list string) :
  (length (summaries apps keys) <= length keys)%nat.
Proof.
  induction keys as [|k keys IH]; [done|]. simpl.
  destruct (catalogue_get apps k); simpl; lia.
Qed.

End Projections.

(** X16. What [get_favorites] shows after [add_to_favorites].  When the
    normalized identifier is a catalogue key that is not yet a favorite, the
    call returns true and the favorites shown gain the summary of that app
    at their end.  When it is no catalogue key but resolves by display name
    or by substring, and is not yet in the list, the call returns true as
    well, but the favorites shown stay as they were: the new entry is
    skipped. *)
Theorem favorites_shown (self : AppLauncher) (id : string) :
  let key := strip (lower id) in
  let out := add_to_favorites self id in
  key ∉ favorites self ->
  (forall app,
      catalogue_get (installed_apps self) key = Some app ->
      out.2 = true
      /\ get_favorites out.1
         = get_favorites self
           ++ [{| s_key := key; s_name := name app;
                  s_category := AppCategory_value (category app) |}])
  /\ (catalogue_get (installed_apps self) key = None ->
      is_Some (_find_app (installed_apps self) key) ->
      out.2 = true
      /\ favorites out.1 = favorites self ++ [key]
      /\ get_favorites out.1 = get_favorites self).
Proof.
  intros key out Hout.
  assert (Hmem : mem key (favorites self) = false).
  { apply not_true_is_false. by rewrite mem_spec. }
  assert (Hadd : is_Some (_find_app (installed_apps self) key) ->
                 out = ({| installed_apps := installed_apps self;
                           app_usage_stats := app_usage_stats self;
                           recent_apps := recent_apps self;
                           favorites := favorites self ++ [key] |}, true)).
  { intros Hsome. unfold out, add_to_favorites. fold key.
    by rewrite Hmem, bool_decide_true. }
  split.
  - intros app Hget. rewrite Hadd.
    + split; [done|]. unfold get_favorites. cbn [fst installed_apps favorites].
      rewrite summaries_app. simpl. by rewrite Hget.
    + unfold _find_app. rewrite Hget. by eexists.
  - intros Hget Hsome. rewrite (Hadd Hsome). split; [done|]. split; [done|].
    unfold get_favorites. cbn [fst installed_apps favorites].
    rewrite summaries_app. simpl. by rewrite Hget, app_nil_r.
Qed.

Lemma favorites_shown_witness :
  (add_to_favorites AppLauncher_init "whats").2 = true
  /\ get_favorites (add_to_favorites AppLauncher_init "whats").1 = [].
Proof.
  destruct (proj2 (favorites_shown AppLauncher_init "whats"
                     (not_elem_of_nil _))) as (H1 & _ & H2).
  - reflexivity.
  - vm_compute. by eexists.
  - split; [exact H1|exact H2].
Defined.

(** X17. What [get_recent_apps] shows.  It never lists more apps than the
    recent list has entries, and each app it lists is a catalogue entry
    under its own key.  After a successful launch in a launcher whose recent
    list has no duplicate, the app launched is shown first when the
    normalized identifier is its catalogue key; when the identifier resolved
    by display name or by substring instead, no app is shown for it. *)
Theorem recent_apps_shown (self : AppLauncher) (id : string)
    (parameters : option Params) (t_stats t_result : string) :
  let key := strip (lower id) in
  let after := (launch self id parameters t_stats t_result).1 in
  (length (get_recent_apps self) <= length (recent_apps self))%nat
  /\ (forall s, s ∈ get_recent_apps self ->
                s_key s ∈ recent_apps self
                /\ exists app,
                    catalogue_get (installed_apps self) (s_key s) = Some app
                    /\ s_name s = name app
                    /\ s_category s = AppCategory_value (category app))
  /\ (NoDup (recent_apps self) ->
      forall app,
        catalogue_get (installed_apps self) key = Some app ->
        head (get_recent_apps after)
        = Some {| s_key := key; s_name := name app;
                  s_category := AppCategory_value (category app) |})
  /\ (catalogue_get (installed_apps self) key = None ->
      forall s, s ∈ get_recent_apps after -> s_key s <> key).
Proof.
  intros key after. split; [apply summaries_length|].
  split; [|split].
  - intros s (app & Hin & Hget & ->)%summaries_elem. split; [done|].
    by exists app.
  - intros Hnd app Hget.
    assert (Hfind : is_Some (_find_app (installed_apps self) key)).
    { unfold _find_app. rewrite Hget. by eexists. }
    pose proof (launch_recent_list self id parameters t_stats t_result
                  Hnd Hfind) as Hrec.
    destruct (launch_records self id parameters t_stats t_result Hfind)
      as (Hcat & _).
    unfold get_recent_apps. fold key after in Hrec, Hcat. rewrite Hrec, Hcat.
    cbn [take summaries]. by rewrite Hget.
  - intros Hget s (app & _ & Hs & _)%summaries_elem Heq.
    assert (Hcat : installed_apps after = installed_apps self).
    { unfold after, launch. by destruct (_find_app _ _). }
    rewrite Hcat, Heq, Hget in Hs. done.
Qed.

Lemma recent_apps_shown_witness :
  head (get_recent_apps (launch AppLauncher_init "Camera " None "t0" "t1").1)
  = Some {| s_key := "camera"; s_name := "Camera";
            s_category := "photography" |}.
Proof.
  apply (proj1 (proj2 (proj2
           (recent_apps_shown AppLauncher_init "Camera " None "t0" "t1")))
           (NoDup_nil_2 (A := string))
           {| name := "Camera"; package := "com.android.camera";
              category := PHOTOGRAPHY; icon := "camera_icon" |}).
  reflexivity.
Defined.

Section Persistence.

Lemma step_persist (self : AppLauncher) (op : Op) :
  installed_apps (step self op) = installed_apps self
  /\ favorites self `prefix_of` favorites (step self op)
  /\ (forall k, is_Some (app_usage_stats self !! k) ->
                is_Some (app_usage_stats (step self op) !! k)).
Proof.
  assert (Hlaunch : forall id parameters t_stats t_result,
             let after := (launch self id parameters t_stats t_result).1 in
             installed_apps after = installed_apps self
             /\ favorites self `prefix_of` favorites after
             /\ (forall k, is_Some (app_usage_stats self !! k) ->
                           is_Some (app_usage_stats after !! k))).
  { intros id parameters t_stats t_result. unfold launch.
    destruct (_find_app _ _); cbn; [|done].
    split; [done|]. split; [done|]. intros k Hk. rewrite update_lookup.
    by destruct (decide _). }
  destruct op as [| |index t_stats t_result| | |]; simpl; try done.
  - unfold add_to_favorites. case_match; [|done]. cbn.
    split; [done|]. split; [by apply prefix_app_r|done].
  - destruct (switch_to_recent_cases self index t_stats t_result)
      as [[exc ->]|[->|(key & _ & ->)]]; done.
Qed.

End Persistence.

(** X18. Nothing is ever taken back in a session, from any launcher state:
    the catalogue stays the same, the favorites only grow at their end (the
    old list is a prefix of the new one), a key that has statistics keeps
    them, and no launch count decreases. *)
Theorem session_only_grows (ops : list Op) (self : AppLauncher) :
  installed_apps (run ops self) = installed_apps self
  /\ favorites self `prefix_of` favorites (run ops self)
  /\ (forall k, is_Some (app_usage_stats self !! k) ->
                is_Some (app_usage_stats (run ops self) !! k))
  /\ (forall k, count_of (app_usage_stats self) k
                <= count_of (app_usage_stats (run ops self)) k).
Proof.
  split; [|split; [|split]]; [| | |intros k; apply run_count_mono].
  all: revert self; induction ops as [|op ops IH]; intros self; [done|].
  all: cbn [run fold_left]; fold (run ops (step self op)).
  all: destruct (step_persist self op) as (Hc & Hf & Hs).
  - by rewrite IH.
  - etrans; [exact Hf|apply IH].
  - intros k Hk. by apply IH, Hs.
Qed.

Lemma database_functional (k : string) (app app' : AppInfo) :
  (k, app) ∈ _initialize_app_database ->
  (k, app') ∈ _initialize_app_database ->
  app = app'.
Proof.
  intros Hin Hin'. apply list_elem_of_In in Hin, Hin'.
  simpl in Hin, Hin'.
  repeat (destruct Hin as [Hin|Hin]; [injection Hin as <- <-|]);
    try (by destruct Hin);
    repeat (destruct Hin' as [Hin'|Hin']; [try by injection Hin'|]);
    try (by destruct Hin'); try (by injection Hin' as _ <-).
Qed.

(** X19. [get_apps_by_category] returns, in catalogue order, the key, the
    display name and the package of exactly the catalogue entries of the
    category asked for; on the launcher's catalogue every entry is returned
    for one category and for no other. *)
Theorem apps_by_category (self : AppLauncher) (c : AppCategory) :
  (forall k n p,
      (k, n, p) ∈ get_apps_by_category self c
      <-> exists app, (k, app) ∈ installed_apps self
                      /\ category app = c
                      /\ n = name app /\ p = package app)
  /\ map (fun r => r.1.1) (get_apps_by_category self c)
     `sublist_of` map fst (installed_apps self)
  /\ (installed_apps self = _initialize_app_database ->
      forall k app, (k, app) ∈ installed_apps self ->
        forall c', (k, name app, package app) ∈ get_apps_by_category self c'
                   <-> c' = category app).
Proof.
  assert (Heqb : forall a b, AppCategory_eqb a b = true <-> a = b).
  { intros a b. unfold AppCategory_eqb. rewrite String.eqb_eq.
    split; [|by intros ->]. by destruct a, b. }
  assert (Hmem : forall c0 k n p,
             (k, n, p) ∈ get_apps_by_category self c0
             <-> exists app, (k, app) ∈ installed_apps self
                             /\ category app = c0
                             /\ n = name app /\ p = package app).
  { intros c0 k n p. unfold get_apps_by_category.
    rewrite list_elem_of_fmap. split.
    - intros ([k' app] & [= -> -> ->] & [Hc Hin]%list_elem_of_filter).
      exists app. simpl in Hc. apply Heqb in Hc. done.
    - intros (app & Hin & Hc & -> & ->). exists (k, app). split; [done|].
      apply list_elem_of_filter. split; [|done]. simpl. by apply Heqb. }
  split; [apply Hmem|]. split.
  - unfold get_apps_by_category. rewrite map_map. simpl.
    apply (fmap_sublist fst), sublist_filter.
  - intros Hdb k app Hin c'. rewrite Hmem. split.
    + intros (app' & Hin' & <- & Hn & Hp). rewrite Hdb in Hin, Hin'.
      by rewrite (database_functional k app app' Hin Hin').
    + intros ->. by exists app.
Qed.

Lemma apps_by_category_witness :
  ("maps", "Google Maps", "com.google.android.apps.maps")
  ∈ get_apps_by_category AppLauncher_init NAVIGATION.
Proof.
  apply (proj2 (proj2 (apps_by_category AppLauncher_init NAVIGATION))
           eq_refl "maps"
           {| name := "Google Maps";
              package := "com.google.android.apps.maps";
              category := NAVIGATION; icon := "maps_icon" |}).
  - apply list_elem_of_In. simpl. tauto.
  - reflexivity.
Defined.

(** The Jaccard index of the character sets of the identifier and of the
    lower-cased key of [e] is above one half. *)
Definition similar (key : string) (e : string * AppInfo) : Prop :=
  (1 # 2 < jaccard (chars key) (chars (lower e.1)))%Q.

Global Instance similar_dec (key : string) (e : string * AppInfo) :
  Decision (similar key e).
Proof.
  unfold similar.
  destruct (Qlt_le_dec (1 # 2) (jaccard (chars key) (chars (lower e.1))))
    as [Hlt|Hle]; [by left|right].
  intros Hlt. by apply Qlt_not_le in Hlt.
Defined.

Lemma filter_agree {A} (P Q : A -> Prop) `{forall x, Decision (P x)}
    `{forall x, Decision (Q x)} (l : list A) :
  (forall x, x ∈ l -> P x <-> Q x) -> filter P l = filter Q l.
Proof.
  induction l as [|a l IH]; intros Hag; [done|].
  rewrite !filter_cons.
  rewrite IH by (intros x Hx; by apply Hag, list_elem_of_further).
  pose proof (Hag a (list_elem_of_here _ _)) as Ha.
  destruct (decide (P a)), (decide (Q a)); tauto.
Qed.

(** X20. When [launch] does not find the identifier, no catalogue entry has
    it as a substring of its key or display name, so the substring tests of
    [_get_similar_apps] select nothing: the suggestions are the display
    names of the first five entries, in catalogue order, whose key has a
    character set with a Jaccard index above one half with that of the
    identifier. *)
Theorem suggestions_by_similarity_only (self : AppLauncher) (id : string)
    (parameters : option Params) (t_stats t_result : string) :
  let key := strip (lower id) in
  l_success (launch self id parameters t_stats t_result).2 = false ->
  (forall e, e ∈ installed_apps self ->
             ~ is_substring key e.1
             /\ ~ is_substring key (lower (name e.2)))
  /\ l_suggestions (launch self id parameters t_stats t_result).2
     = Some (take 5 (map (fun e => name e.2)
                       (filter (similar key) (installed_apps self)))).
Proof.
  intros key Hfail.
  assert (Hnone : _find_app (installed_apps self) key = None).
  { pose proof (launch_result self id parameters t_stats t_result) as H.
    cbv zeta in H. fold key in H.
    destruct (_find_app (installed_apps self) key); [|done].
    destruct H as [H _]. congruence. }
  pose proof (proj1 (_find_app_None _ _) Hnone) as Hsub.
  split; [done|]. unfold launch. fold key. rewrite Hnone.
  cbn [snd l_suggestions]. unfold _get_similar_apps, key.
  rewrite similar_loop_filter. cbn [app]. do 3 f_equal.
  apply filter_agree. intros e He. fold key. unfold suggested, similar.
  destruct (Hsub e He). tauto.
Qed.

Lemma suggestions_by_similarity_only_witness :
  l_suggestions (launch AppLauncher_init "LIAMG" None "t0" "t1").2
  = Some (take 5 (map (fun e => name e.2)
                    (filter (similar (strip (lower "LIAMG")))
                       (installed_apps AppLauncher_init)))).
Proof.
  apply (suggestions_by_similarity_only AppLauncher_init "LIAMG" None
           "t0" "t1").
  vm_compute. reflexivity.
Defined.

(** ** Smart suggestions and deep links *)

Record Suggestion : Type := {
  sg_app : string;
  sg_reason : string
}.

(** [context.get(key)] on the context dictionary. *)
Fixpoint context_get (d : list (string * string)) (key : string)
    : option string :=
  match d with
  | [] => None
  | (k, v) :: d' => if String.eqb k key then Some v else context_get d' key
  end.

(** The time-based part of [get_smart_suggestions]; [hour] is
    [datetime.now().hour]. *)
Definition time_suggestions (hour : Z) : list Suggestion :=
  if (6 <=? hour) && (hour <? 9) then
    [ {| sg_app := "gmail"; sg_reason := "Check morning emails" |};
      {| sg_app := "chrome"; sg_reason := "Read news" |} ]
  else if (9 <=? hour) && (hour <? 17) then
    [ {| sg_app := "slack"; sg_reason := "Work communication" |};
      {| sg_app := "gmail"; sg_reason := "Check emails" |} ]
  else if (17 <=? hour) && (hour <? 22) then
    [ {| sg_app := "spotify"; sg_reason := "Evening music" |};
      {| sg_app := "instagram"; sg_reason := "Social time" |} ]
  else [].

(** [_get_frequent_apps].  The statistics are a [gmap] here, which does not
    record the order in which its keys were inserted; [order] is that order,
    the order in which the source iterates over the dictionary.  The sort is
    the stable descending sort of [learn_from_patterns]. *)
Definition _get_frequent_apps (self : AppLauncher) (order : list string)
    : list string :=
  map fst (sorted_desc
             (map (fun k => (k, count_of (app_usage_stats self) k)) order)).

(** The loop over [frequent_apps[:3]]. *)
Fixpoint frequent_loop (apps : Catalogue) (keys : list string)
    : list Suggestion :=
  match keys with
  | [] => []
  | app_key :: rest =>
      match catalogue_get apps app_key with
      | Some _ =>
          {| sg_app := app_key; sg_reason := "Frequently used" |}
          :: frequent_loop apps rest
      | None => frequent_loop apps rest
      end
  end.

(** The context-based part; an absent or empty context adds nothing. *)
Definition context_suggestions (context : ContextDict) : list Suggestion :=
  match context with
  | None | Some [] => []
  | Some d =>
      (if bool_decide (context_get d "activity" = Some "driving")
       then [ {| sg_app := "maps";
                 sg_reason := "Navigation while driving" |} ]
       else [])
      ++ (if bool_decide (context_get d "location" = Some "gym")
          then [ {| sg_app := "spotify"; sg_reason := "Workout music" |} ]
          else [])
  end.

Definition get_smart_suggestions (self : AppLauncher) (hour : Z)
    (context : ContextDict) (order : list string) : list Suggestion :=
  take 5 (time_suggestions hour
          ++ frequent_loop (installed_apps self)
               (take 3 (_get_frequent_apps self order))
          ++ context_suggestions context).

Section Smart.

Lemma frequent_loop_elem (apps : Catalogue) (keys : list string)
    (sg : Suggestion) :
  sg ∈ frequent_loop apps keys ->
  sg_app sg ∈ keys /\ is_Some (catalogue_get apps (sg_app sg))
  /\ sg_reason sg = "Frequently used".
Proof.
  induction keys as [|k keys IH]; simpl; [by intros ?%elem_of_nil|].
  destruct (catalogue_get apps k) as [app|] eqn:Hk.
  - intros [->|Hin]%elem_of_cons.
    + simpl. rewrite Hk. split; [apply list_elem_of_here|]. by split; [eexists|].
    + destruct (IH Hin) as (? & ? & ?).
      split; [by apply list_elem_of_further|done].
  - intros Hin. destruct (IH Hin) as (? & ? & ?).
    split; [by apply list_elem_of_further|done].
Qed.

Lemma frequent_loop_length (apps : Catalogue) (keys : list string) :
  (length (frequent_loop apps keys) <= length keys)%nat.
Proof.
  induction keys as [|k keys IH]; [done|]. simpl.
  destruct (catalogue_get apps k); simpl; lia.
Qed.

Lemma frequent_loop_all (apps : Catalogue) (keys : list string) :
  Forall (fun k => is_Some (catalogue_get apps k)) keys ->
  length (frequent_loop apps keys) = length keys.
Proof.
  induction 1 as [|k keys [app Hk] _ IH]; [done|]. simpl.
  rewrite Hk. simpl. by rewrite IH.
Qed.

Lemma time_suggestions_cases (hour : Z) :
  (6 <= hour < 22 /\ length (time_suggestions hour) = 2%nat)
  \/ ((hour < 6 \/ 22 <= hour) /\ time_suggestions hour = []).
Proof.
  unfold time_suggestions.
  destruct (Z.leb_spec 6 hour), (Z.ltb_spec hour 9),
    (Z.leb_spec 9 hour), (Z.ltb_spec hour 17),
    (Z.leb_spec 17 hour), (Z.ltb_spec hour 22); simpl;
    first [left; split; [lia|reflexivity] | right; split; [lia|reflexivity]
          | lia].
Qed.

End Smart.



(** X22. From 6 to 22, when the three most launched keys of the statistics
    are catalogue keys, the two time-based and the three frequently-used
    suggestions fill the five places: the result does not depend on the
    context, and the driving and gym suggestions are never given. *)
Theorem smart_suggestions_context_cut (self : AppLauncher) (hour : Z)
    (context : ContextDict) (order : list string) :
  6 <= hour < 22 ->
  (3 <= length order)%nat ->
  Forall (fun k => is_Some (catalogue_get (installed_apps self) k))
    (take 3 (_get_frequent_apps self order)) ->
  get_smart_suggestions self hour context order
  = time_suggestions hour
    ++ frequent_loop (installed_apps self)
         (take 3 (_get_frequent_apps self order))
  /\ get_smart_suggestions self hour context order
     = get_smart_suggestions self hour None order
  /\ forall sg, sg ∈ get_smart_suggestions self hour context order ->
                sg_reason sg <> "Navigation while driving"
                /\ sg_reason sg <> "Workout music".
Proof.
  intros Hhour Horder Hall.
  set (t := time_suggestions hour).
  set (f := frequent_loop (installed_apps self)
              (take 3 (_get_frequent_apps self order))).
  assert (Ht : length t = 2%nat).
  { destruct (time_suggestions_cases hour) as [[_ ?]|[? _]]; [done|lia]. }
  assert (Hf : length f = 3%nat).
  { unfold f. rewrite frequent_loop_all by done.
    rewrite length_take. unfold _get_frequent_apps.
    rewrite length_map, (Permutation_length (sorted_desc_perm _)), length_map.
    lia. }
  assert (Hcut : forall ctx, get_smart_suggestions self hour ctx order
                             = t ++ f).
  { intros ctx. unfold get_smart_suggestions. fold t f.
    rewrite app_assoc, take_app_le by (rewrite length_app; lia).
    apply take_ge. rewrite length_app. lia. }
  split; [apply Hcut|]. split; [by rewrite !Hcut|].
  intros sg. rewrite Hcut. intros [Hsg|Hsg]%elem_of_app.
  - unfold t, time_suggestions in Hsg.
    repeat case_match; apply list_elem_of_In in Hsg; simpl in Hsg;
      repeat (destruct Hsg as [<-|Hsg]; [done|]); done.
  - apply frequent_loop_elem in Hsg as (_ & _ & ->). done.
Qed.

Definition three_launches : AppLauncher :=
  run [OpLaunch "gmail" None "t0" "t1"; OpLaunch "camera" None "t2" "t3";
       OpLaunch "spotify" None "t4" "t5"] AppLauncher_init.

Lemma smart_suggestions_context_cut_witness :
  get_smart_suggestions three_launches 10
    (Some [("activity", "driving")]) ["gmail"; "camera"; "spotify"]
  = get_smart_suggestions three_launches 10 None
      ["gmail"; "camera"; "spotify"].
Proof.
  apply (smart_suggestions_context_cut three_launches 10
           (Some [("activity", "driving")]) ["gmail"; "camera"; "spotify"]).
  - lia.
  - simpl. lia.
  - vm_compute. repeat constructor; by eexists.
Defined.

(** X23. The launch parameters only decide the deep link.  Whatever they
    are, [launch] leaves the same launcher and returns the same result up to
    the deep link; the deep link is there exactly when the launch succeeds
    and the parameters are a non-empty dictionary, and it starts with the
    package of the app followed by "://action?". *)
Theorem launch_parameters_only_link (self : AppLauncher) (id : string)
    (parameters : option Params) (t_stats t_result : string) :
  let out := launch self id parameters t_stats t_result in
  let plain := launch self id None t_stats t_result in
  out.1 = plain.1
  /\ l_success out.2 = l_success plain.2
  /\ l_error out.2 = l_error plain.2
  /\ l_suggestions out.2 = l_suggestions plain.2
  /\ l_app_name out.2 = l_app_name plain.2
  /\ l_package out.2 = l_package plain.2
  /\ l_category out.2 = l_category plain.2
  /\ l_message out.2 = l_message plain.2
  /\ l_deep_link plain.2 = None
  /\ (is_Some (l_deep_link out.2)
      <-> l_success out.2 = true /\ params_truthy parameters = true)
  /\ (forall link, l_deep_link out.2 = Some link ->
        exists p, l_package out.2 = Some p
                  /\ link = (p +:+ "://action?", default [] parameters)).
Proof.
  intros out plain. unfold out, plain, launch.
  destruct (_find_app _ _) as [app|]; cbn.
  - do 9 (split; [done|]). split; [split|].
    + intros [link Hl]. by destruct (params_truthy parameters).
    + intros [_ ->]. by eexists.
    + intros link Hl. exists (package app). split; [done|].
      destruct (params_truthy parameters); [|done]. by injection Hl as <-.
  - do 9 (split; [done|]). split; [split|done].
    + by intros [link Hl].
    + by intros [? _].
Qed.

Lemma launch_n_times_witness :
  count_of
    (app_usage_stats
       (Nat.iter 3 (fun s => (launch s "Spotify" None "t0" "t1").1)
          AppLauncher_init))
    (strip (lower "Spotify")) = 3.
Proof.
  apply (launch_n_times 3 "Spotify" "t0" "t1").
  vm_compute. by eexists.
Defined.
